(** * Opticom chat relay: a shallow embedding of [opticom.cpp]

    The development follows the source file top to bottom: the C-level
    helpers the handler relies on ([char] buffers, [std::string],
    [strftime]), the [ChatServer] members ([addToHistory],
    [sendRoomHistory], [broadcastMessage], [removeClient],
    [handleClient], [stop]) as computations over the server's state and
    an I/O trace, the server reacting to its environment one input at a
    time, and finally the handlers as threads: a small-step interleaving
    semantics of the lock discipline around [clientsMutex], and of
    [addToHistory], which runs outside it. *)

From Stdlib Require Import ZArith Lia Ascii String List.
From stdpp Require Import base option list strings gmap.

Local Open Scope Z_scope.

(** ** C strings and [std::string] *)

Module CStr.

(** The NUL byte and the newline byte. *)
Definition NUL : ascii := Ascii.zero.
Definition LF : ascii := "010"%char.

(** The one-character string ["\n"]. *)
Definition newline : string := String LF EmptyString.

(** [s.size()] *)
Definition size (s : string) : nat := String.length s.

(** [s.c_str()]: the characters of [s] followed by the terminating NUL. *)
Definition c_str (s : string) : list ascii :=
  list_ascii_of_string s ++ [NUL].

(** [memset(buffer, 0, n)] *)
Definition zeros (n : nat) : list ascii := replicate n NUL.

(** The [std::string(const char* )] constructor: the characters before the
    first NUL.  When the array holds no NUL the constructor reads past
    its end, which is undefined: [None]. *)
Fixpoint string_of_buffer (buf : list ascii) : option string :=
  match buf with
  | [] => None
  | c :: rest =>
      if decide (c = NUL) then Some EmptyString
      else String c <$> string_of_buffer rest
  end.

(** [s.erase(remove(s.begin(), s.end(), c), s.end())]: every occurrence of
    [c] is dropped, the other characters keep their order. *)
Fixpoint erase_remove (c : ascii) (s : string) : string :=
  match s with
  | EmptyString => EmptyString
  | String a s' =>
      if decide (a = c) then erase_remove c s'
      else String a (erase_remove c s')
  end.

(** The characters of a byte sequence in front of its first NUL; all of
    them when it holds none. *)
Fixpoint until_nul (bytes : list ascii) : string :=
  match bytes with
  | [] => EmptyString
  | c :: rest =>
      if decide (c = NUL) then EmptyString else String c (until_nul rest)
  end.

(** Occurrence of a character in a string. *)
Fixpoint occurs (c : ascii) (s : string) : Prop :=
  match s with
  | EmptyString => False
  | String a s' => a = c ∨ occurs c s'
  end.

End CStr.

(** ** Local time and [nowTimestamp] *)

(** The fields of [struct tm] that [strftime] reads for ["%H:%M:%S"]. *)
Record tm := mk_tm { tm_hour : Z; tm_min : Z; tm_sec : Z }.

Definition tm_in_range (t : tm) : Prop :=
  0 <= tm_hour t <= 23 ∧ 0 <= tm_min t <= 59 ∧ 0 <= tm_sec t <= 60.

Definition digit_char (d : Z) : ascii := ascii_of_nat (48 + Z.to_nat d).

(** A [%H], [%M] or [%S] conversion: two decimal digits, zero padded. *)
Definition two_digits (n : Z) : string :=
  String (digit_char (n / 10)) (String (digit_char (n mod 10)) EmptyString).

(** [strftime(buffer, sizeof(buffer), "%H:%M:%S", &t)] followed by
    [string(buffer)].  The local time [t] is what [time] and
    [localtime_r] produced at the call. *)
Definition nowTimestamp (t : tm) : string :=
  two_digits (tm_hour t) +:+ ":" +:+ two_digits (tm_min t) +:+ ":"
    +:+ two_digits (tm_sec t).




(** ** Server state *)

Record ClientInfo := mk_client {
  socket : Z;
  name : string;
  ip : string;
  room : string
}.

Global Instance ClientInfo_eq_dec : EqDecision ClientInfo.
Proof. solve_decision. Defined.

(** One system call made by the server, in program order. *)
Inductive IOEvent :=
| EvSend (sock : Z) (bytes : string) (ret : Z)
| EvClose (sock : Z).

Global Instance IOEvent_eq_dec : EqDecision IOEvent.
Proof. solve_decision. Defined.

(** The members of [ChatServer] the handlers touch, the global
    [serverRunning] flag, and the trace of system calls made so far. *)
Record State := mk_state {
  clients : list ClientInfo;
  room_history : gmap string (list string);
  running : bool;
  serverRunning : bool;
  trace : list IOEvent
}.

Definition MAX_HISTORY : nat := 50.

Definition initial_state : State :=
  {| clients := []; room_history := ∅; running := true;
     serverRunning := true; trace := [] |}.

Definition set_clients (cs : list ClientInfo) (st : State) : State :=
  {| clients := cs; room_history := room_history st; running := running st;
     serverRunning := serverRunning st; trace := trace st |}.

Definition set_room_history (h : gmap string (list string)) (st : State) : State :=
  {| clients := clients st; room_history := h; running := running st;
     serverRunning := serverRunning st; trace := trace st |}.

Definition set_running (b : bool) (st : State) : State :=
  {| clients := clients st; room_history := room_history st; running := b;
     serverRunning := serverRunning st; trace := trace st |}.

Definition set_serverRunning (b : bool) (st : State) : State :=
  {| clients := clients st; room_history := room_history st;
     running := running st; serverRunning := b; trace := trace st |}.

Definition add_events (evs : list IOEvent) (st : State) : State :=
  {| clients := clients st; room_history := room_history st;
     running := running st; serverRunning := serverRunning st;
     trace := trace st ++ evs |}.

Definition log_event (e : IOEvent) (st : State) : State :=
  {| clients := clients st; room_history := room_history st;
     running := running st; serverRunning := serverRunning st;
     trace := trace st ++ [e] |}.

(** ** The computation monad

    State passing over [State]; [None] stands for undefined behaviour of
    the C++ program (reading past the end of an array). *)

Definition M (A : Type) : Type := State → option (A * State).

Definition ret {A} (a : A) : M A := λ st, Some (a, st).

Definition bind {A B} (m : M A) (k : A → M B) : M B :=
  λ st, match m st with
        | Some (a, st') => k a st'
        | None => None
        end.

Definition undefined {A} : M A := λ _, None.
Definition get : M State := λ st, Some (st, st).
Definition modify (f : State → State) : M unit := λ st, Some (tt, f st).

Global Instance M_ret : MRet M := @ret.
Global Instance M_bind : MBind M := λ A B k m, bind m k.

(** The final state of a computation, when it is defined. *)
Definition exec {A} (m : M A) (st : State) : option State :=
  snd <$> m st.

(** ** System calls *)

Section Server.

(** Whether the [k]-th system call of the run, when it is a [send],
    fails (returns [-1]).  The handlers have no influence on it. *)
Variable send_fails : nat → bool.

(** [send(sock, buf, len, 0)]: transmits the first [len] bytes of [buf];
    a call that does not fail is taken to transmit all of them.  Asking for
    more bytes than the array holds is undefined. *)
Definition send (sock : Z) (buf : list ascii) (len : nat) : M Z :=
  λ st,
    if decide (len ≤ length buf)%nat then
      let r := if send_fails (length (trace st)) then -1 else Z.of_nat len in
      Some (r, log_event (EvSend sock (string_of_list_ascii (take len buf)) r) st)
    else None.

(** [close(fd)] *)
Definition close (sock : Z) : M unit := modify (log_event (EvClose sock)).

(** ** Room history *)

(** [room_history[room]]: [operator[]] default-constructs a missing
    entry, here the empty vector. *)
Definition history_of (h : gmap string (list string)) (r : string) : list string :=
  default [] (h !! r).

(** [addToHistory] on the map alone. *)
Definition add_to_history (h : gmap string (list string)) (r msg : string)
  : gmap string (list string) :=
  let history := history_of h r in
  let history :=
    if decide (MAX_HISTORY ≤ length history)%nat then drop 1 history
    else history in
  <[r := history ++ [msg]]> h.

Definition addToHistory (r msg : string) : M unit :=
  modify (λ st, set_room_history (add_to_history (room_history st) r msg) st).

(** The loop body of [sendRoomHistory]. *)
Fixpoint send_lines (clientSocket : Z) (msgs : list string) : M unit :=
  match msgs with
  | [] => mret tt
  | msg :: rest =>
      _ ← send clientSocket (CStr.c_str msg) (CStr.size msg);
      _ ← send clientSocket (CStr.c_str CStr.newline) 1;
      send_lines clientSocket rest
  end.

Definition sendRoomHistory (clientSocket : Z) (r : string) : M unit :=
  st ← get;
  match room_history st !! r with
  | Some msgs => send_lines clientSocket msgs
  | None => mret tt
  end.

(** ** Registry and broadcast *)

(** The registration block of [handleClient]:
    [clients.push_back({clientSocket, name, ip, room})]. *)
Definition push_back (c : ClientInfo) (cs : list ClientInfo) : list ClientInfo :=
  cs ++ [c].

(** The scan of [broadcastMessage]: [targets] grows by [push_back]. *)
Fixpoint scan_targets (cs : list ClientInfo) (r : string) (senderSocket : Z)
    (targets : list Z) : list Z :=
  match cs with
  | [] => targets
  | c :: rest =>
      if decide (room c = r ∧ socket c ≠ senderSocket)
      then scan_targets rest r senderSocket (targets ++ [socket c])
      else scan_targets rest r senderSocket targets
  end.

Definition broadcast_targets (cs : list ClientInfo) (r : string) (senderSocket : Z)
  : list Z :=
  scan_targets cs r senderSocket [].

(** The delivery loop of [broadcastMessage]. *)
Fixpoint deliver (targets : list Z) (msg : string) : M unit :=
  match targets with
  | [] => mret tt
  | sock :: rest =>
      sent ← send sock (CStr.c_str msg) (CStr.size msg);
      if decide (sent < 0) then deliver rest msg
      else (_ ← send sock (CStr.c_str CStr.newline) 1; deliver rest msg)
  end.

Definition broadcastMessage (msg : string) (senderSocket : Z) (r : string) : M unit :=
  st ← get;
  deliver (broadcast_targets (clients st) r senderSocket) msg.

(** [removeClient]: [erase(remove_if(...))] drops every entry whose socket
    equals the argument. *)
Definition remove_client (s : Z) (cs : list ClientInfo) : list ClientInfo :=
  filter (λ c, socket c ≠ s) cs.

Definition removeClient (s : Z) : M unit :=
  modify (λ st, set_clients (remove_client s (clients st)) st).

(** ** The connection handler *)

(** [sizeof(buffer)] in [handleClient]. *)
Definition BUFFER_SIZE : nat := 1024.

(** What one [recv] call reports: a failure ([-1]), or the bytes the peer
    sent; no bytes is the orderly end of the stream ([0]). *)
Inductive RecvResult :=
| RecvError
| RecvBytes (data : string).

(** The bytes [recv] copies: never more than the buffer holds. *)
Definition received (r : RecvResult) : list ascii :=
  match r with
  | RecvError => []
  | RecvBytes data => take BUFFER_SIZE (list_ascii_of_string data)
  end.

(** The return value of [recv]. *)
Definition recv_ret (r : RecvResult) : Z :=
  match r with
  | RecvError => -1
  | RecvBytes _ => Z.of_nat (length (received r))
  end.

(** [memset(buffer, 0, sizeof(buffer)); recv(sock, buffer, sizeof(buffer), 0)]:
    the received bytes overwrite the front of the zeroed array. *)
Definition buffer_after_recv (r : RecvResult) : list ascii :=
  received r ++ CStr.zeros (BUFFER_SIZE - length (received r)).

(** The reads after which the array holds a NUL: those that do not fill
    it, and those that bring a NUL themselves. *)
Definition terminated (r : RecvResult) : Prop :=
  (length (received r) < BUFFER_SIZE)%nat ∨ CStr.NUL ∈ received r.

Global Instance terminated_dec r : Decision (terminated r).
Proof. unfold terminated. apply _. Defined.

(** [string(buffer)] lifted to the monad. *)
Definition string_of (buffer : list ascii) : M string :=
  match CStr.string_of_buffer buffer with
  | Some s => mret s
  | None => undefined
  end.

(** The prompt and the read of the display name.  The return value of
    this [recv] is not looked at. *)
Definition greeting (clientSocket : Z) (r : RecvResult) : M string :=
  _ ← send clientSocket (CStr.c_str "Enter your name: ") 17;
  name ← string_of (buffer_after_recv r);
  mret (CStr.erase_remove CStr.LF name).

(** Registration, confirmation, history replay and join announcement. *)
Definition joining (clientSocket : Z) (name ip : string) : M string :=
  let room := "general" in
  _ ← modify (λ st,
        set_clients (push_back (mk_client clientSocket name ip room) (clients st)) st);
  _ ← send clientSocket (CStr.c_str ("Joined room: " +:+ room +:+ CStr.newline))
        (CStr.size room + 15);
  _ ← sendRoomHistory clientSocket room;
  _ ← broadcastMessage (name +:+ " joined the chat") clientSocket room;
  mret room.

(** The line a relayed message becomes. *)
Definition format_message (timestamp name message : string) : string :=
  "[" +:+ timestamp +:+ "] " +:+ name +:+ ": " +:+ message.

(** The body of the relay loop after a successful [recv]. *)
Definition relay (clientSocket : Z) (name room : string)
    (r : RecvResult) (now : tm) : M unit :=
  message ← string_of (buffer_after_recv r);
  let message := CStr.erase_remove CStr.LF message in
  let fullMessage := format_message (nowTimestamp now) name message in
  _ ← addToHistory room fullMessage;
  broadcastMessage fullMessage clientSocket room.

(** How the relay loop was left: through its exit, or with the handler
    still waiting in [recv] when the script of inputs ran out. *)
Inductive LoopExit := Exited | Parked.

(** The relay loop, driven by the results of the successive [recv] calls
    and the local time read after each of them. *)
Fixpoint relay_loop (clientSocket : Z) (name room : string)
    (script : list (RecvResult * tm)) : M LoopExit :=
  st ← get;
  if running st && serverRunning st then
    match script with
    | [] => mret Parked
    | (r, now) :: rest =>
        if decide (recv_ret r <= 0) then mret Exited
        else
          _ ← relay clientSocket name room r now;
          relay_loop clientSocket name room rest
    end
  else mret Exited.

(** The end of [handleClient]. *)
Definition closing (clientSocket : Z) : M unit :=
  _ ← removeClient clientSocket;
  close clientSocket.

Definition handleClient (clientSocket : Z) (ip : string)
    (first : RecvResult) (script : list (RecvResult * tm)) : M LoopExit :=
  name ← greeting clientSocket first;
  room ← joining clientSocket name ip;
  e ← relay_loop clientSocket name room script;
  match e with
  | Exited => _ ← closing clientSocket; mret Exited
  | Parked => mret Parked
  end.

(** [stop]: the loop closing every live transport, then [clients.clear()]. *)
Fixpoint close_all (cs : list ClientInfo) : M unit :=
  match cs with
  | [] => mret tt
  | c :: rest => _ ← close (socket c); close_all rest
  end.

Definition stop : M unit :=
  _ ← modify (set_running false);
  st ← get;
  _ ← close_all (clients st);
  modify (set_clients []).

End Server.

(** ** The server as a whole

    One handler runs per accepted connection.  Blocked in [recv], a handler
    is described by its locals [name] and [room]; the server reacts to what
    its environment does next: a connection is accepted, a blocked [recv]
    returns, [stop] is called, a signal arrives. *)

Record System := mk_system {
  server : State;
  handlers : gmap Z (string * string)
}.

Inductive Input :=
| Accept (sock : Z) (ip : string) (first : RecvResult)
| Recv (sock : Z) (r : RecvResult) (now : tm)
| Stop
| Signal.

Definition initial_system : System :=
  {| server := initial_state; handlers := ∅ |}.

Section Reactive.

Variable send_fails : nat → bool.

(** [handleClient] up to the head of its loop. *)
Definition accept_connection (sock : Z) (ip : string) (first : RecvResult)
  : M (string * string) :=
  name ← greeting send_fails sock first;
  room ← joining send_fails sock name ip;
  mret (name, room).

(** The head of the loop of [handleClient]: with both flags set the handler
    goes on into [recv] and blocks there; otherwise it leaves the loop and
    closes. *)
Definition loop_head (sock : Z) : M LoopExit :=
  st ← get;
  if running st && serverRunning st then mret Parked
  else _ ← closing sock; mret Exited.

(** What a handler blocked in [recv] does once the call returns [r]: the
    way out, or the body of the loop and then the head of the loop again.
    The flags are looked at only there, after the body. *)
Definition after_recv (sock : Z) (name room : string) (r : RecvResult) (now : tm)
  : M LoopExit :=
  if decide (recv_ret r <= 0) then _ ← closing sock; mret Exited
  else _ ← relay send_fails sock name room r now; loop_head sock.

(** A handler blocked in [recv], through the results of its next reads. *)
Fixpoint handler_turns (sock : Z) (name room : string)
    (script : list (RecvResult * tm)) : M LoopExit :=
  match script with
  | [] => mret Parked
  | (r, now) :: rest =>
      e ← after_recv sock name room r now;
      match e with
      | Exited => mret Exited
      | Parked => handler_turns sock name room rest
      end
  end.

(** One reaction of the server.  A handler runs until it blocks in [recv]
    or returns; the handlers recorded are those blocked in [recv]. *)
Definition step (i : Input) (sys : System) : option System :=
  match i with
  | Accept sock ip first =>
      match (locals ← accept_connection sock ip first;
             e ← loop_head sock;
             mret (locals, e)) (server sys) with
      | Some ((locals, Parked), st') =>
          Some {| server := st'; handlers := <[sock := locals]> (handlers sys) |}
      | Some ((locals, Exited), st') =>
          Some {| server := st'; handlers := handlers sys |}
      | None => None
      end
  | Recv sock r now =>
      match handlers sys !! sock with
      | None => Some sys
      | Some (name, room) =>
          match after_recv sock name room r now (server sys) with
          | Some (Parked, st') =>
              Some {| server := st'; handlers := handlers sys |}
          | Some (Exited, st') =>
              Some {| server := st'; handlers := delete sock (handlers sys) |}
          | None => None
          end
      end
  | Stop =>
      match stop (server sys) with
      | Some (_, st') => Some {| server := st'; handlers := handlers sys |}
      | None => None
      end
  | Signal =>
      Some {| server := set_serverRunning false (server sys);
              handlers := handlers sys |}
  end.

Fixpoint run (inputs : list Input) (sys : System) : option System :=
  match inputs with
  | [] => Some sys
  | i :: rest =>
      match step i sys with
      | Some sys' => run rest sys'
      | None => None
      end
  end.

(** What the delivery loop writes when the trace already holds [k]
    events. *)
Fixpoint deliver_trace (k : nat) (targets : list Z) (msg : string) : list IOEvent :=
  match targets with
  | [] => []
  | sock :: rest =>
      if send_fails k then
        EvSend sock msg (-1) :: deliver_trace (S k) rest msg
      else
        EvSend sock msg (Z.of_nat (CStr.size msg))
          :: EvSend sock CStr.newline (if send_fails (S k) then -1 else 1)
          :: deliver_trace (S (S k)) rest msg
  end.

(** What the history replay writes when the trace already holds [k]
    events. *)
Fixpoint replay_trace (k : nat) (sock : Z) (msgs : list string) : list IOEvent :=
  match msgs with
  | [] => []
  | msg :: rest =>
      EvSend sock msg (if send_fails k then -1 else Z.of_nat (CStr.size msg))
        :: EvSend sock CStr.newline (if send_fails (S k) then -1 else 1)
        :: replay_trace (S (S k)) sock rest
  end.

End Reactive.

(** The sockets written to, and the bytes offered to one socket, in a
    stretch of trace. *)
Definition written_to (evs : list IOEvent) : list Z :=
  omap (λ e, match e with EvSend sock _ _ => Some sock | EvClose _ => None end) evs.

Definition offered_to (h : Z) (evs : list IOEvent) : list string :=
  omap (λ e, match e with
             | EvSend sock bytes _ => if decide (sock = h) then Some bytes else None
             | EvClose _ => None
             end) evs.

(** The messages appended to the history of room [r] by a list of
    [addToHistory] calls, oldest first. *)
Definition appended_to (r : string) (calls : list (string * string)) : list string :=
  snd <$> filter (λ c, fst c = r) calls.

(** The store after calls of [addToHistory] made one after the other, each
    returning before the next begins.  Calls of different handlers need not
    do so: see [History] below for their statements alternating. *)
Definition run_appends (h : gmap string (list string)) (calls : list (string * string))
  : gmap string (list string) :=
  foldl (λ h c, add_to_history h (fst c) (snd c)) h calls.

(** What [broadcastMessage] writes from state [st]. *)
Definition broadcast_events (send_fails : nat → bool) (msg : string) (sender : Z)
    (r : string) (st : State) : list IOEvent :=
  deliver_trace send_fails (length (trace st))
    (broadcast_targets (clients st) r sender) msg.

(** The attempts one target of a broadcast sees: the message, then the line
    terminator unless the first write failed. *)
Definition target_chunk (msg : string) (sock : Z) (chunk : list IOEvent) : Prop :=
  ∃ ret tail,
    chunk = EvSend sock msg ret :: tail
    ∧ (tail = [] ∨ ∃ ret', tail = [EvSend sock CStr.newline ret']).

(** The inputs that put handle [s] into the registry. *)
Definition registers (s : Z) (i : Input) : Prop :=
  match i with
  | Accept sock _ _ => sock = s
  | _ => False
  end.

Global Instance registers_dec s i : Decision (registers s i).
Proof. destruct i; simpl; apply _. Defined.

(** The bytes the confirmation [send] of [handleClient] puts on the wire:
    the first [room.size() + 15] bytes of the C string. *)
Definition confirmation : string :=
  string_of_list_ascii
    (take (CStr.size "general" + 15)
       (CStr.c_str ("Joined room: " +:+ "general" +:+ CStr.newline))).

(** What the joining phase writes from state [st]: the confirmation, the
    replay of the room's history, the join announcement. *)
Definition join_events (send_fails : nat → bool) (sock : Z) (name ip : string)
    (st : State) : list IOEvent :=
  let k := length (trace st) in
  let msgs := history_of (room_history st) "general" in
  [EvSend sock confirmation (if send_fails k then -1 else 22)]
  ++ replay_trace send_fails (S k) sock msgs
  ++ deliver_trace send_fails (S k + 2 * length msgs)
       (broadcast_targets
          (push_back (mk_client sock name ip "general") (clients st))
          "general" sock)
       (name +:+ " joined the chat").

(** The lines a stretch of trace offers to socket [h], without the line
    terminators written on their own. *)
Definition lines_offered_to (h : Z) (evs : list IOEvent) : list string :=
  filter (λ s, s ≠ CStr.newline) (offered_to h evs).

(** An entry the relay loop can have produced from one of the inputs. *)
Definition relayed (inputs : list Input) (entry : string) : Prop :=
  ∃ sock r now name raw,
    Recv sock r now ∈ inputs
    ∧ CStr.string_of_buffer (buffer_after_recv r) = Some raw
    ∧ entry = format_message (nowTimestamp now) name
                (CStr.erase_remove CStr.LF raw).


(** The shape [HH:MM:SS]. *)
Definition is_digit (c : ascii) : Prop :=
  (48 ≤ nat_of_ascii c ≤ 57)%nat.

Definition is_HH_MM_SS (s : string) : Prop :=
  ∃ h1 h2 m1 m2 s1 s2,
    s = String h1 (String h2 (String ":" (String m1 (String m2
          (String ":" (String s1 (String s2 EmptyString)))))))
    ∧ is_digit h1 ∧ is_digit h2 ∧ is_digit m1 ∧ is_digit m2
    ∧ is_digit s1 ∧ is_digit s2.

(** A registry of two sessions in room general, used in examples. *)
Definition two_clients : State :=
  set_clients
    [mk_client 4 "A" "10.0.0.1" "general"; mk_client 5 "B" "10.0.0.2" "general"]
    initial_state.

(** Inputs whose clock readings are proper times of day. *)
Definition well_timed (i : Input) : Prop :=
  match i with
  | Recv _ _ now => tm_in_range now
  | _ => True
  end.

(** The scenario of the specification: A and B join, A says hi at 10:00:00,
    then C joins. *)
Definition scenario : list Input :=
  [Accept 4 "10.0.0.1" (RecvBytes ("A" +:+ CStr.newline));
   Accept 5 "10.0.0.2" (RecvBytes ("B" +:+ CStr.newline));
   Recv 4 (RecvBytes ("hi" +:+ CStr.newline)) (mk_tm 10 0 0);
   Accept 6 "10.0.0.3" (RecvBytes ("C" +:+ CStr.newline))].

(** ** Threads and [clientsMutex]

    The handlers run as threads and meet at the members that take
    [clientsMutex].  A thread is described by the program point it is at;
    one step of one thread is one statement of the source.  A [send] to a
    peer that does not drain its socket (a stalled peer) does not
    return, so it is not a step the thread can take. *)

Module Lock.

(** Program points, with the locals alive at them. *)
Inductive Pc :=
| Idle
    (* between two of the operations below *)
| HandlerSend (sock : Z) (bytes : string)
    (* a write of [handleClient] or [sendRoomHistory] itself *)
| RegisterLock (c : ClientInfo)
    (* [handleClient]: about to construct the [lock_guard] *)
| RegisterPush (c : ClientInfo)
    (* [clients.push_back], then the end of the block *)
| BroadcastLock (msg : string) (senderSocket : Z) (r : string)
    (* [broadcastMessage]: about to construct the [lock_guard] *)
| BroadcastScan (msg : string) (senderSocket : Z) (r : string) (i : nat)
    (targets : list Z)
    (* the scanning loop, its iterator at position [i] *)
| BroadcastSend (msg : string) (targets : list Z)
    (* the delivery loop, about to write [msg] to the first target left *)
| BroadcastNewline (msg : string) (sock : Z) (rest : list Z)
    (* about to write the line terminator to [sock] *)
| RemoveLock (s : Z)
    (* [removeClient]: about to construct the [lock_guard] *)
| RemoveErase (s : Z)
    (* the erase, then the end of the function *)
| StopLock
    (* [stop]: about to construct the [lock_guard] *)
| StopClose (i : nat)
    (* the closing loop of [stop], its iterator at position [i] *).

(** The program points inside the scope of a [lock_guard]. *)
Definition holding (pc : Pc) : Prop :=
  match pc with
  | RegisterPush _ | BroadcastScan _ _ _ _ _ | RemoveErase _ | StopClose _ => True
  | _ => False
  end.

(** The program points in front of a [send]. *)
Definition sending (pc : Pc) : Prop :=
  match pc with
  | HandlerSend _ _ | BroadcastSend _ (_ :: _) | BroadcastNewline _ _ _ => True
  | _ => False
  end.

(** The program points in front of a [lock_guard]. *)
Definition waiting (pc : Pc) : Prop :=
  match pc with
  | RegisterLock _ | BroadcastLock _ _ _ | RemoveLock _ | StopLock => True
  | _ => False
  end.

(** The operations an idle thread may start. *)
Definition entry (pc : Pc) : Prop :=
  match pc with
  | HandlerSend _ _ | RegisterLock _ | BroadcastLock _ _ _ | RemoveLock _
  | StopLock => True
  | _ => False
  end.

Record Config := mk_config {
  registry : list ClientInfo;        (* the member [clients] *)
  clientsMutex : option nat;         (* the thread that owns the mutex *)
  threads : gmap nat Pc;
  wire : list IOEvent
}.

Definition at_pc (cfg : Config) (t : nat) (pc : Pc) : Prop :=
  threads cfg !! t = Some pc.

Definition goto (t : nat) (pc : Pc) (cfg : Config) : Config :=
  {| registry := registry cfg; clientsMutex := clientsMutex cfg;
     threads := <[t := pc]> (threads cfg); wire := wire cfg |}.

Definition acquire (t : nat) (pc : Pc) (cfg : Config) : Config :=
  {| registry := registry cfg; clientsMutex := Some t;
     threads := <[t := pc]> (threads cfg); wire := wire cfg |}.

Definition release (t : nat) (pc : Pc) (cs : list ClientInfo) (cfg : Config)
  : Config :=
  {| registry := cs; clientsMutex := None;
     threads := <[t := pc]> (threads cfg); wire := wire cfg |}.

Definition emit (t : nat) (pc : Pc) (e : IOEvent) (cfg : Config) : Config :=
  {| registry := registry cfg; clientsMutex := clientsMutex cfg;
     threads := <[t := pc]> (threads cfg); wire := wire cfg ++ [e] |}.

Section Semantics.

(** The peers that do not drain their sockets. *)
Variable stalled : Z → Prop.

Inductive step (cfg : Config) (t : nat) : Config → Prop :=
| step_call pc :
    at_pc cfg t Idle → entry pc →
    step cfg t (goto t pc cfg)
| step_handler_send sock bytes ret :
    at_pc cfg t (HandlerSend sock bytes) → ¬ stalled sock →
    step cfg t (emit t Idle (EvSend sock bytes ret) cfg)
| step_register_lock c :
    at_pc cfg t (RegisterLock c) → clientsMutex cfg = None →
    step cfg t (acquire t (RegisterPush c) cfg)
| step_register_push c :
    at_pc cfg t (RegisterPush c) →
    step cfg t (release t Idle (push_back c (registry cfg)) cfg)
| step_broadcast_lock msg sender r :
    at_pc cfg t (BroadcastLock msg sender r) → clientsMutex cfg = None →
    step cfg t (acquire t (BroadcastScan msg sender r 0 []) cfg)
| step_broadcast_scan msg sender r i targets c :
    at_pc cfg t (BroadcastScan msg sender r i targets) →
    registry cfg !! i = Some c →
    step cfg t
      (goto t
         (BroadcastScan msg sender r (S i)
            (if decide (room c = r ∧ socket c ≠ sender)
             then targets ++ [socket c] else targets))
         cfg)
| step_broadcast_unlock msg sender r i targets :
    at_pc cfg t (BroadcastScan msg sender r i targets) →
    registry cfg !! i = None →
    step cfg t (release t (BroadcastSend msg targets) (registry cfg) cfg)
| step_broadcast_done msg :
    at_pc cfg t (BroadcastSend msg []) →
    step cfg t (goto t Idle cfg)
| step_broadcast_sent msg sock rest :
    at_pc cfg t (BroadcastSend msg (sock :: rest)) → ¬ stalled sock →
    step cfg t
      (emit t (BroadcastNewline msg sock rest)
         (EvSend sock msg (Z.of_nat (CStr.size msg))) cfg)
| step_broadcast_failed msg sock rest :
    at_pc cfg t (BroadcastSend msg (sock :: rest)) → ¬ stalled sock →
    step cfg t (emit t (BroadcastSend msg rest) (EvSend sock msg (-1)) cfg)
| step_broadcast_newline msg sock rest ret :
    at_pc cfg t (BroadcastNewline msg sock rest) → ¬ stalled sock →
    step cfg t
      (emit t (BroadcastSend msg rest) (EvSend sock CStr.newline ret) cfg)
| step_remove_lock s :
    at_pc cfg t (RemoveLock s) → clientsMutex cfg = None →
    step cfg t (acquire t (RemoveErase s) cfg)
| step_remove_erase s :
    at_pc cfg t (RemoveErase s) →
    step cfg t (release t Idle (remove_client s (registry cfg)) cfg)
| step_stop_lock :
    at_pc cfg t StopLock → clientsMutex cfg = None →
    step cfg t (acquire t (StopClose 0) cfg)
| step_stop_close i c :
    at_pc cfg t (StopClose i) → registry cfg !! i = Some c →
    step cfg t (emit t (StopClose (S i)) (EvClose (socket c)) cfg)
| step_stop_clear i :
    at_pc cfg t (StopClose i) → registry cfg !! i = None →
    step cfg t (release t Idle [] cfg).

(** The configurations the server can get into: it starts with an empty
    registry, a free mutex and idle threads. *)
Inductive reachable : Config → Prop :=
| reachable_start ths :
    (∀ t pc, ths !! t = Some pc → pc = Idle) →
    reachable (mk_config [] None ths [])
| reachable_step cfg t cfg' :
    reachable cfg → step cfg t cfg' → reachable cfg'.

(** Several steps, of any threads. *)
Inductive steps : Config → Config → Prop :=
| steps_refl cfg : steps cfg cfg
| steps_cons cfg t cfg1 cfg2 :
    step cfg t cfg1 → steps cfg1 cfg2 → steps cfg cfg2.

End Semantics.

(** No peer drains its socket. *)
Definition all_stalled : Z → Prop := λ _, True.

(** Every peer drains its socket. *)
Definition none_stalled : Z → Prop := λ _, False.

(** Only the peer on [p] is stalled. *)
Definition only_stalled (p : Z) : Z → Prop := λ s, s = p.

(** What the threads agree on in every reachable configuration. *)
Record invariant (cfg : Config) : Prop := mk_invariant {
  inv_holder : ∀ t pc, at_pc cfg t pc → holding pc → clientsMutex cfg = Some t;
  inv_owner : ∀ t, clientsMutex cfg = Some t → ∃ pc, at_pc cfg t pc ∧ holding pc;
  inv_scan : ∀ t msg sender r i targets,
    at_pc cfg t (BroadcastScan msg sender r i targets) →
    targets = scan_targets (take i (registry cfg)) r sender []
}.

(** The mutex is free again in [cfg'], and the threads other than [t0] are
    where they were in [cfg]. *)
Definition released_by (t0 : nat) (cfg cfg' : Config) : Prop :=
  clientsMutex cfg' = None
  ∧ ∀ t, t ≠ t0 → threads cfg' !! t = threads cfg !! t.

(** A run used in examples: thread 0 registers a session on socket 4,
    thread 1 broadcasts [hi] and is about to write to socket 4, thread 0 then
    wants to deregister. *)
Definition c4 : ClientInfo := mk_client 4 "A" "10.0.0.1" "general".

Definition two_threads : Config :=
  mk_config [] None {[ 0%nat := Idle; 1%nat := Idle ]} [].

Definition registered : Config :=
  release 0 Idle (push_back c4 [])
    (acquire 0 (RegisterPush c4) (goto 0 (RegisterLock c4) two_threads)).

Definition delivering : Config :=
  release 1 (BroadcastSend "hi" [4]) [c4]
    (goto 1 (BroadcastScan "hi" 5 "general" 1 [4])
       (acquire 1 (BroadcastScan "hi" 5 "general" 0 [])
          (goto 1 (BroadcastLock "hi" 5 "general") registered))).

Definition contended : Config := goto 0 (RemoveLock 4) delivering.

(** A second run: the handlers of A, B and C (threads 0, 1 and 2) register
    their sessions on sockets 4, 5 and 6; then C's handler broadcasts [hi],
    has scanned the registry and is about to write to socket 4, with socket 5
    next in its list. *)
Definition c5 : ClientInfo := mk_client 5 "B" "10.0.0.2" "general".
Definition c6 : ClientInfo := mk_client 6 "C" "10.0.0.3" "general".

Definition three_threads : Config :=
  mk_config [] None {[ 0%nat := Idle; 1%nat := Idle; 2%nat := Idle ]} [].

Definition register (t : nat) (c : ClientInfo) (cfg : Config) : Config :=
  release t Idle (push_back c (registry cfg))
    (acquire t (RegisterPush c) (goto t (RegisterLock c) cfg)).

Definition three_registered : Config :=
  register 2 c6 (register 1 c5 (register 0 c4 three_threads)).

Definition blocked : Config :=
  release 2 (BroadcastSend "hi" [4; 5]) [c4; c5; c6]
    (goto 2 (BroadcastScan "hi" 6 "general" 3 [4; 5])
       (goto 2 (BroadcastScan "hi" 6 "general" 2 [4; 5])
          (goto 2 (BroadcastScan "hi" 6 "general" 1 [4])
             (acquire 2 (BroadcastScan "hi" 6 "general" 0 [])
                (goto 2 (BroadcastLock "hi" 6 "general") three_registered))))).

End Lock.

(** ** [addToHistory] from several threads

    [handleClient] calls [addToHistory] outside every [lock_guard], and
    each handler is a thread of its own: the statements of two calls can
    alternate.  A thread is described by the statement of [addToHistory] it
    is in front of; the vector [history] refers to is the entry of
    [room_history] for the room of the call. *)

Module History.

Inductive Pc :=
| Idle
    (* not inside [addToHistory] *)
| Lookup (room msg : string)
    (* [auto &history = room_history[room]] *)
| Test (room msg : string)
    (* [if (history.size() >= MAX_HISTORY)] *)
| Erase (room msg : string)
    (* [history.erase(history.begin())] *)
| Push (room msg : string)
    (* [history.push_back(msg)] *).

Global Instance Pc_eq_dec : EqDecision Pc.
Proof. solve_decision. Defined.

Record Store := mk_store {
  rooms : gmap string (list string);   (* the member [room_history] *)
  threads : gmap nat Pc
}.

Definition initial : Store := {| rooms := ∅; threads := ∅ |}.

Definition pc_of (s : Store) (t : nat) : Pc := default Idle (threads s !! t).

Definition goto (t : nat) (pc : Pc) (h : gmap string (list string)) (s : Store)
  : Store :=
  {| rooms := h; threads := <[t := pc]> (threads s) |}.

(** What the scheduler lets happen next: thread [t] calls [addToHistory],
    or thread [t] executes the statement it is in front of. *)
Inductive Action :=
| Call (t : nat) (room msg : string)
| Next (t : nat).

(** One action.  A thread inside a call does not start another one, and a
    thread outside has no statement to execute: such an action changes
    nothing.  [erase(begin())] on an empty vector is undefined: [None]. *)
Definition act (a : Action) (s : Store) : option Store :=
  match a with
  | Call t r msg =>
      match pc_of s t with
      | Idle => Some (goto t (Lookup r msg) (rooms s) s)
      | _ => Some s
      end
  | Next t =>
      match pc_of s t with
      | Idle => Some s
      | Lookup r msg =>
          Some (goto t (Test r msg) (<[r := history_of (rooms s) r]> (rooms s)) s)
      | Test r msg =>
          if decide (MAX_HISTORY ≤ length (history_of (rooms s) r))%nat
          then Some (goto t (Erase r msg) (rooms s) s)
          else Some (goto t (Push r msg) (rooms s) s)
      | Erase r msg =>
          match history_of (rooms s) r with
          | [] => None
          | _ :: rest => Some (goto t (Push r msg) (<[r := rest]> (rooms s)) s)
          end
      | Push r msg =>
          Some (goto t Idle (<[r := history_of (rooms s) r ++ [msg]]> (rooms s)) s)
      end
  end.

Fixpoint run (schedule : list Action) (s : Store) : option Store :=
  match schedule with
  | [] => Some s
  | a :: rest =>
      match act a s with
      | Some s' => run rest s'
      | None => None
      end
  end.

(** One call executed by thread [t] with no statement of another thread in
    between. *)
Definition whole_call (t : nat) (c : string * string) : list Action :=
  [Call t (fst c) (snd c); Next t; Next t; Next t; Next t].

(** Calls made one after the other. *)
Definition serial (t : nat) (calls : list (string * string)) : list Action :=
  calls ≫= whole_call t.

(** Thread 0 fills room general with fifty messages.  Then threads 1 and 2
    both call [addToHistory]: thread 1 finds fifty entries and erases the
    oldest; thread 2 tests the size after that erase and before the
    [push_back] of thread 1, finds forty-nine entries and erases nothing;
    both push. *)
Definition racing : list Action :=
  serial 0 (replicate 50 ("general", "m"))
  ++ [Call 1 "general" "x"; Call 2 "general" "y";
      Next 1; Next 2;      (* both look the room up *)
      Next 1;              (* thread 1: size 50, cap reached *)
      Next 1;              (* thread 1: erase, size 49 *)
      Next 2;              (* thread 2: size 49, below the cap *)
      Next 1;              (* thread 1: push_back, size 50 *)
      Next 2].             (* thread 2: push_back, size 51 *)

(** The messages of the calls in a schedule. *)
Definition called (schedule : list Action) : list string :=
  omap (λ a, match a with Call _ _ msg => Some msg | Next _ => None end) schedule.



End History.

(** ** The process: [main], [start], [acceptClients], [stop]

    The listening endpoint and the operator's console, around the members
    modelled above. *)

Module Process.

(** What goes to [cout] and [cerr]; an [int] written with [<<] is kept as
    the number. *)
Inductive Console :=
| Out (text : string)
| OutInt (n : Z)
| Err (text : string).

(** The system calls on the listening endpoint, with their results. *)
Inductive Syscall :=
| SysIgnoreSigpipe
| SysSocket (ret : Z)
| SysSetReuseAddr (fd : Z)
| SysBind (fd : Z) (port : Z) (ret : Z)
| SysListen (fd : Z) (backlog : Z) (ret : Z)
| SysAccept (fd : Z) (ret : Z)
| SysClose (fd : Z).

Global Instance Syscall_eq_dec : EqDecision Syscall.
Proof. solve_decision. Defined.

(** A [ChatServer] object with what it has printed and called so far. *)
Record Server := mk_server {
  members : State;
  serverSocket : Z;
  console : list Console;
  calls : list Syscall
}.

(** [ChatServer() : serverSocket(-1), running(false)] *)
Definition constructed (printed : list Console) : Server :=
  {| members := set_running false initial_state; serverSocket := -1;
     console := printed; calls := [] |}.

Definition with_members (f : State → State) (s : Server) : Server :=
  {| members := f (members s); serverSocket := serverSocket s;
     console := console s; calls := calls s |}.

Definition set_serverSocket (fd : Z) (s : Server) : Server :=
  {| members := members s; serverSocket := fd;
     console := console s; calls := calls s |}.

Definition say (lines : list Console) (s : Server) : Server :=
  {| members := members s; serverSocket := serverSocket s;
     console := console s ++ lines; calls := calls s |}.

Definition log_call (c : Syscall) (s : Server) : Server :=
  {| members := members s; serverSocket := serverSocket s;
     console := console s; calls := calls s ++ [c] |}.

(** What [socket], [bind] and [listen] return to [start]. *)
Record Endpoint := mk_endpoint {
  socket_ret : Z;
  bind_ret : Z;
  listen_ret : Z
}.

(** What happens while [acceptClients] is blocked in [accept]: the call
    returns (a descriptor or [-1], and the peer's address as [inet_ntoa]
    prints it), or [signalHandler] runs and the call goes on waiting. *)
Inductive AcceptEvent :=
| Connection (ret : Z) (ip : string)
| Interrupt.

Definition serving (s : Server) : bool :=
  running (members s) && serverRunning (members s).

(** The body of the loop of [acceptClients] from the call of [accept] on,
    and the loop again when its condition holds.  Each accepted connection
    is handed to a detached thread running [handleClient]; the list of
    these is the result. *)
Fixpoint await (script : list AcceptEvent) (s : Server)
  : list (Z * string) * LoopExit * Server :=
  match script with
  | [] => ([], Parked, s)
  | Interrupt :: rest =>
      await rest (with_members (set_serverRunning false) s)
  | Connection clientSocket ip :: rest =>
      let s1 := log_call (SysAccept (serverSocket s) clientSocket) s in
      if decide (clientSocket < 0) then
        if serving s1 then await rest s1 else ([], Exited, s1)
      else
        let s2 := say [Out "New connection from "; Out ip; Out CStr.newline] s1 in
        if serving s2 then
          let '(spawned, e, s3) := await rest s2 in
          ((clientSocket, ip) :: spawned, e, s3)
        else ([(clientSocket, ip)], Exited, s2)
  end.

Definition acceptClients (script : list AcceptEvent) (s : Server)
  : list (Z * string) * LoopExit * Server :=
  if serving s then await script s else ([], Exited, s).

(** [start(port)]; [Parked] when it has not returned. *)
Definition start (env : Endpoint) (script : list AcceptEvent) (port : Z)
    (s : Server) : list (Z * string) * LoopExit * Server :=
  let s := with_members (set_running true) s in
  let s := log_call SysIgnoreSigpipe s in
  let s := log_call (SysSocket (socket_ret env))
             (set_serverSocket (socket_ret env) s) in
  if decide (serverSocket s < 0) then
    ([], Exited, say [Err ("Socket creation failed" +:+ CStr.newline)] s)
  else
    let s := log_call (SysSetReuseAddr (serverSocket s)) s in
    let s := log_call (SysBind (serverSocket s) port (bind_ret env)) s in
    if decide (bind_ret env < 0) then
      ([], Exited,
       log_call (SysClose (serverSocket s))
         (say [Err ("Bind failed" +:+ CStr.newline)] s))
    else
      let s := log_call (SysListen (serverSocket s) 10 (listen_ret env)) s in
      if decide (listen_ret env < 0) then
        ([], Exited,
         log_call (SysClose (serverSocket s))
           (say [Err ("Listen failed" +:+ CStr.newline)] s))
      else
        acceptClients script
          (say [Out "Server started on port "; OutInt port; Out CStr.newline] s).

(** [stop()], with the part on the listening descriptor. *)
Definition stop (s : Server) : Server :=
  let s := with_members (set_running false) s in
  let s :=
    if decide (0 <= serverSocket s) then
      set_serverSocket (-1) (log_call (SysClose (serverSocket s)) s)
    else s in
  let s :=
    with_members
      (λ st, add_events (EvClose <$> (socket <$> clients st)) st) s in
  with_members (set_clients []) s.

(** [print_help] *)
Definition help_text : string :=
  "Opticom Chat Server" +:+ CStr.newline +:+
  "Usage: ./opticom [OPTIONS]" +:+ CStr.newline +:+ CStr.newline +:+
  "Options:" +:+ CStr.newline +:+
  "  --help, -h         Show this help menu" +:+ CStr.newline +:+
  "  -p, --port <num>   Start server on specified port (default: 8080)"
    +:+ CStr.newline.

(** [argv[i]]; the accesses of [main] are guarded by [argc]. *)
Definition arg (argv : list string) (i : nat) : string := nth i argv "".

(** The port [main] settles on and what it prints on the way.  [atoi] is
    the C library's. *)
Definition select_port (atoi : string → Z) (argv : list string)
  : Z * list Console :=
  if decide (2 < length argv)%nat then
    if decide (arg argv 1 = "-p" ∨ arg argv 1 = "--port") then
      let port := atoi (arg argv 2) in
      if decide (port <= 0 ∨ 65535 < port) then
        (8080, [Err ("Invalid port. Using default 8080." +:+ CStr.newline)])
      else (port, [])
    else (8080, [])
  else (8080, []).

(** How far [main] gets: it prints the help and returns, it is still inside
    [acceptClients], or it returns after [start]; then the server object is
    given as its destructor left it. *)
Inductive Outcome :=
| HelpShown (exit_code : Z) (text : string)
| Serving (spawned : list (Z * string)) (s : Server)
| Returned (exit_code : Z) (spawned : list (Z * string)) (s : Server).

(** [main(argc, argv)] with [argc = length argv]. *)
Definition main (atoi : string → Z) (env : Endpoint)
    (script : list AcceptEvent) (argv : list string) : Outcome :=
  if decide ((1 < length argv)%nat
             ∧ (arg argv 1 = "--help" ∨ arg argv 1 = "-h")) then
    HelpShown 0 help_text
  else
    let '(port, warnings) := select_port atoi argv in
    match start env script port (constructed warnings) with
    | (handlers, Exited, server) => Returned 0 handlers (stop server)
    | (handlers, Parked, server) => Serving handlers server
    end.

(** The connections of a script that [accept] reports with a descriptor. *)
Definition accepted_of (script : list AcceptEvent) : list (Z * string) :=
  omap (λ e, match e with
             | Connection ret ip =>
                 if decide (ret < 0) then None else Some (ret, ip)
             | Interrupt => None
             end) script.

Definition is_connection (e : AcceptEvent) : Prop :=
  match e with
  | Connection _ _ => True
  | Interrupt => False
  end.

(** How often the descriptor [fd] was closed by the calls made so far. *)
Definition listening_closes (fd : Z) (s : Server) : nat :=
  length (filter (λ c, c = SysClose fd) (calls s)).

(** The decimal reading of the C library's [atoi], for texts whose value
    fits an [int]: leading white space, an optional sign, then digits up to
    the first other character. *)
Definition is_space (c : ascii) : bool :=
  bool_decide (c ∈ [" "; "009"; "010"; "011"; "012"; "013"]%char).

Fixpoint skip_spaces (s : string) : string :=
  match s with
  | String c s' => if is_space c then skip_spaces s' else s
  | EmptyString => EmptyString
  end.

Fixpoint digits_value (acc : Z) (s : string) : Z :=
  match s with
  | String c s' =>
      let n := nat_of_ascii c in
      if decide (48 ≤ n ≤ 57)%nat
      then digits_value (10 * acc + (Z.of_nat n - 48)) s'
      else acc
  | EmptyString => acc
  end.

Definition atoi (s : string) : Z :=
  match skip_spaces s with
  | String "-" s' => - digits_value 0 s'
  | String "+" s' => digits_value 0 s'
  | s' => digits_value 0 s'
  end.

End Process.

(** ** The states a step leads to *)

Section StepCases.

Variable send_fails : nat → bool.

(** The state after the prompt was written. *)
Definition prompted (sock : Z) (st : State) : State :=
  add_events
    [EvSend sock "Enter your name: "
       (if send_fails (length (trace st)) then -1 else 17)] st.

(** The state after the joining phase of the session [name] on [sock]. *)
Definition joined (sock : Z) (name ip : string) (st : State) : State :=
  add_events (join_events send_fails sock name ip (prompted sock st))
    (set_clients (push_back (mk_client sock name ip "general") (clients st))
       (prompted sock st)).

(** The state after the closing phase. *)
Definition closed (sock : Z) (st : State) : State :=
  add_events [EvClose sock]
    (set_clients (remove_client sock (clients st)) st).

(** The state after the body of the relay loop has handled the text
    [raw]. *)
Definition relayed_from (sock : Z) (name r raw : string) (now : tm) (st : State)
  : State :=
  add_events
    (deliver_trace send_fails (length (trace st))
       (broadcast_targets (clients st) r sock)
       (format_message (nowTimestamp now) name (CStr.erase_remove CStr.LF raw)))
    (set_room_history
       (add_to_history (room_history st) r
          (format_message (nowTimestamp now) name
             (CStr.erase_remove CStr.LF raw)))
       st).

Definition flags (st : State) : bool := running st && serverRunning st.

(** The ways a step can go. *)
Inductive step_case (i : Input) (sys sys' : System) : Prop :=
| case_accept_parked sock ip first raw :
    i = Accept sock ip first →
    CStr.string_of_buffer (buffer_after_recv first) = Some raw →
    flags (server sys) = true →
    sys' = {| server := joined sock (CStr.erase_remove CStr.LF raw) ip (server sys);
              handlers :=
                <[sock := (CStr.erase_remove CStr.LF raw, "general")]>
                  (handlers sys) |} →
    step_case i sys sys'
| case_accept_exited sock ip first raw :
    i = Accept sock ip first →
    CStr.string_of_buffer (buffer_after_recv first) = Some raw →
    flags (server sys) = false →
    sys' = {| server :=
                closed sock
                  (joined sock (CStr.erase_remove CStr.LF raw) ip (server sys));
              handlers := handlers sys |} →
    step_case i sys sys'
| case_no_handler sock rr now :
    i = Recv sock rr now → handlers sys !! sock = None → sys' = sys →
    step_case i sys sys'
| case_leave sock rr now name r :
    i = Recv sock rr now → handlers sys !! sock = Some (name, r) →
    recv_ret rr <= 0 →
    sys' = {| server := closed sock (server sys);
              handlers := delete sock (handlers sys) |} →
    step_case i sys sys'
| case_relay_parked sock rr now name r raw :
    i = Recv sock rr now → handlers sys !! sock = Some (name, r) →
    0 < recv_ret rr →
    CStr.string_of_buffer (buffer_after_recv rr) = Some raw →
    flags (server sys) = true →
    sys' = {| server := relayed_from sock name r raw now (server sys);
              handlers := handlers sys |} →
    step_case i sys sys'
| case_relay_exited sock rr now name r raw :
    i = Recv sock rr now → handlers sys !! sock = Some (name, r) →
    0 < recv_ret rr →
    CStr.string_of_buffer (buffer_after_recv rr) = Some raw →
    flags (server sys) = false →
    sys' = {| server := closed sock (relayed_from sock name r raw now (server sys));
              handlers := delete sock (handlers sys) |} →
    step_case i sys sys'
| case_stop :
    i = Stop →
    sys' = {| server :=
                set_clients []
                  (add_events (EvClose <$> (socket <$> clients (server sys)))
                     (set_running false (server sys)));
              handlers := handlers sys |} →
    step_case i sys sys'
| case_signal :
    i = Signal →
    sys' = {| server := set_serverRunning false (server sys);
              handlers := handlers sys |} →
    step_case i sys sys'.

End StepCases.

(** ** Descriptors and runs *)







(** The server has one room: every session and every handler is in room
    general, and no other room has a history. *)
Definition one_room (sys : System) : Prop :=
  (∀ c, c ∈ clients (server sys) → room c = "general")
  ∧ (∀ sock name r, handlers sys !! sock = Some (name, r) → r = "general")
  ∧ (∀ r, r ≠ "general" → room_history (server sys) !! r = None).



(** ** Sanity checks on concrete runs *)

Definition never_fails : nat → bool := λ _, false.

Example nowTimestamp_morning :
  nowTimestamp (mk_tm 10 0 0) = "10:00:00".
Proof. reflexivity. Qed.

Example nowTimestamp_padded :
  nowTimestamp (mk_tm 9 5 7) = "09:05:07".
Proof. reflexivity. Qed.

(** * Properties *)

(** ** Strings and buffers *)

Lemma length_list_ascii_of_string (s : string) :
  length (list_ascii_of_string s) = String.length s.
Proof. induction s as [|a s IH]; simpl; [done | by rewrite IH]. Qed.

Lemma string_app_cons (a : ascii) (s1 s2 : string) :
  String a s1 +:+ s2 = String a (s1 +:+ s2).
Proof. reflexivity. Qed.

Lemma string_app_nil (s : string) : "" +:+ s = s.
Proof. reflexivity. Qed.

Lemma list_ascii_of_string_app (s1 s2 : string) :
  list_ascii_of_string (s1 +:+ s2)
  = list_ascii_of_string s1 ++ list_ascii_of_string s2.
Proof.
  induction s1 as [|a s1 IH]; [done|].
  rewrite string_app_cons. simpl. by rewrite IH.
Qed.


Lemma string_app_assoc (s1 s2 s3 : string) :
  (s1 +:+ s2) +:+ s3 = s1 +:+ s2 +:+ s3.
Proof.
  induction s1 as [|a s1 IH]; [done|].
  rewrite !string_app_cons. by rewrite IH.
Qed.


Lemma take_c_str (s : string) :
  string_of_list_ascii (take (CStr.size s) (CStr.c_str s)) = s.
Proof.
  unfold CStr.size, CStr.c_str.
  rewrite <- length_list_ascii_of_string, take_app_length.
  apply string_of_list_ascii_of_string.
Qed.

Lemma length_c_str (s : string) : length (CStr.c_str s) = S (CStr.size s).
Proof.
  unfold CStr.c_str, CStr.size.
  rewrite length_app, length_list_ascii_of_string. simpl. lia.
Qed.



Lemma erase_remove_clean (c : ascii) (s : string) :
  ¬ CStr.occurs c (CStr.erase_remove c s).
Proof.
  induction s as [|a s IH]; simpl; [tauto|].
  destruct (decide (a = c)); simpl; tauto.
Qed.

(** A NUL-free text followed by a NUL reads back as the text, whatever
    comes after the NUL. *)
Lemma string_of_buffer_text (s : string) (rest : list ascii) :
  ¬ CStr.occurs CStr.NUL s →
  CStr.string_of_buffer (list_ascii_of_string s ++ CStr.NUL :: rest) = Some s.
Proof.
  induction s as [|a s IH]; intros Hno.
  - simpl. by destruct (decide (CStr.NUL = CStr.NUL)).
  - simpl in *. destruct (decide (a = CStr.NUL)); [tauto|].
    rewrite IH by tauto. done.
Qed.

(** ** The monad *)

Lemma bind_unfold {A B} (m : M A) (k : A → M B) (st : State) :
  (m ≫= k) st = match m st with Some (a, st') => k a st' | None => None end.
Proof. reflexivity. Qed.

Lemma add_events_nil (st : State) : add_events [] st = st.
Proof. destruct st; unfold add_events; simpl. by rewrite app_nil_r. Qed.

Lemma add_events_app (evs1 evs2 : list IOEvent) (st : State) :
  add_events evs2 (add_events evs1 st) = add_events (evs1 ++ evs2) st.
Proof. unfold add_events; simpl. by rewrite app_assoc. Qed.

Lemma log_event_add (e : IOEvent) (st : State) : log_event e st = add_events [e] st.
Proof. reflexivity. Qed.

Lemma set_clients_same (st : State) : set_clients (clients st) st = st.
Proof. by destruct st. Qed.

(** Trace positions come out of [length_app] as sums; bring them back to
    successors. *)
Ltac succ_positions :=
  rewrite ?length_app; simpl;
  repeat match goal with
         | |- context [(?n + 1)%nat] =>
             replace (n + 1)%nat with (S n) by lia
         | |- context [(?n + 2)%nat] =>
             replace (n + 2)%nat with (S (S n)) by lia
         end.

(** ** System calls *)

Section SendFacts.

Variable send_fails : nat → bool.

Lemma send_string (sock : Z) (msg : string) (st : State) :
  send send_fails sock (CStr.c_str msg) (CStr.size msg) st
  = Some (if send_fails (length (trace st)) then -1 else Z.of_nat (CStr.size msg),
          add_events
            [EvSend sock msg
               (if send_fails (length (trace st)) then -1
                else Z.of_nat (CStr.size msg))] st).
Proof.
  unfold send. rewrite decide_True by (rewrite length_c_str; lia).
  by rewrite take_c_str.
Qed.

Lemma send_newline (sock : Z) (st : State) :
  send send_fails sock (CStr.c_str CStr.newline) 1 st
  = Some (if send_fails (length (trace st)) then -1 else 1,
          add_events
            [EvSend sock CStr.newline
               (if send_fails (length (trace st)) then -1 else 1)] st).
Proof. apply (send_string sock CStr.newline). Qed.

(** The delivery loop always runs to its end, changes nothing but the
    trace, and writes what [deliver_trace] lists. *)
Lemma deliver_run (targets : list Z) (msg : string) (st : State) :
  deliver send_fails targets msg st
  = Some (tt, add_events
                (deliver_trace send_fails (length (trace st)) targets msg) st).
Proof.
  revert st. induction targets as [|sock rest IH]; intros st; simpl.
  - by rewrite add_events_nil.
  - rewrite bind_unfold, send_string.
    destruct (send_fails (length (trace st))) eqn:Hf.
    + rewrite decide_True by lia. rewrite IH, add_events_app. simpl.
      by succ_positions.
    + rewrite decide_False by lia.
      rewrite bind_unfold, send_newline, IH, !add_events_app. simpl.
      by succ_positions.
Qed.

Lemma broadcastMessage_run (msg : string) (sender : Z) (r : string) (st : State) :
  broadcastMessage send_fails msg sender r st
  = Some (tt, add_events
                (deliver_trace send_fails (length (trace st))
                   (broadcast_targets (clients st) r sender) msg) st).
Proof. unfold broadcastMessage. rewrite bind_unfold. simpl. apply deliver_run. Qed.

Lemma send_lines_run (sock : Z) (msgs : list string) (st : State) :
  send_lines send_fails sock msgs st
  = Some (tt, add_events
                (replay_trace send_fails (length (trace st)) sock msgs) st).
Proof.
  revert st. induction msgs as [|msg rest IH]; intros st; simpl.
  - by rewrite add_events_nil.
  - rewrite bind_unfold, send_string, bind_unfold, send_newline, IH.
    rewrite !add_events_app. simpl. by succ_positions.
Qed.

Lemma written_to_deliver_trace (k : nat) (targets : list Z) (msg : string) (h : Z) :
  h ∈ written_to (deliver_trace send_fails k targets msg) ↔ h ∈ targets.
Proof.
  revert k. induction targets as [|sock rest IH]; intros k; simpl.
  - done.
  - destruct (send_fails k); simpl; rewrite ?elem_of_cons, IH; tauto.
Qed.

End SendFacts.

(** ** Broadcast targets *)

Lemma scan_targets_filter (cs : list ClientInfo) (r : string) (sender : Z)
    (targets : list Z) :
  scan_targets cs r sender targets
  = targets ++ (socket <$> filter (λ c, room c = r ∧ socket c ≠ sender) cs).
Proof.
  revert targets. induction cs as [|c rest IH]; intros targets; simpl.
  - by rewrite app_nil_r.
  - rewrite filter_cons. destruct (decide (room c = r ∧ socket c ≠ sender)).
    + rewrite IH. simpl. by rewrite <- app_assoc.
    + apply IH.
Qed.

Lemma broadcast_targets_filter (cs : list ClientInfo) (r : string) (sender : Z) :
  broadcast_targets cs r sender
  = socket <$> filter (λ c, room c = r ∧ socket c ≠ sender) cs.
Proof. apply (scan_targets_filter cs r sender []). Qed.

Lemma elem_of_broadcast_targets (cs : list ClientInfo) (r : string) (sender h : Z) :
  h ∈ broadcast_targets cs r sender
  ↔ ∃ c, c ∈ cs ∧ socket c = h ∧ room c = r ∧ h ≠ sender.
Proof.
  rewrite broadcast_targets_filter, list_elem_of_fmap. split.
  - intros (c & -> & Hc). apply list_elem_of_filter in Hc as [[? ?] ?]. eauto.
  - intros (c & Hc & <- & Hr & Hs). exists c. split; [done|].
    apply list_elem_of_filter. auto.
Qed.

(** ** Broadcast *)

(** Two registered sessions in room general and one in room lobby. *)
Example broadcast_three_sessions :
  broadcast_targets
    [mk_client 4 "A" "10.0.0.1" "general"; mk_client 5 "B" "10.0.0.2" "general";
     mk_client 6 "C" "10.0.0.3" "lobby"] "general" 4 = [5].
Proof. reflexivity. Qed.

Lemma offered_to_deliver_trace (send_fails : nat → bool) (k : nat)
    (targets : list Z) (msg : string) (h : Z) :
  h ∈ targets → msg ∈ offered_to h (deliver_trace send_fails k targets msg).
Proof.
  revert k. induction targets as [|sock rest IH]; intros k Hin.
  - by apply elem_of_nil in Hin.
  - apply elem_of_cons in Hin as [->|Hin]; simpl.
    + destruct (send_fails k); simpl; rewrite decide_True by done; left.
    + specialize (IH (S k) Hin) as IH1. specialize (IH (S (S k)) Hin) as IH2.
      destruct (send_fails k); simpl; repeat case_decide; simpl;
        rewrite ?elem_of_cons; auto.
Qed.

(** C1. A broadcast of [msg] in room [r] with sender handle [sender] always
    completes; the handles it writes to are exactly the handles of the
    registered sessions whose room is [r] and whose handle differs from
    [sender], each of them is offered [msg], the sender is never written
    to, and a session of another room is never written to (as long as its
    handle is not also registered in room [r]). *)
Theorem broadcast_targets_exact (send_fails : nat → bool) (msg : string)
    (sender : Z) (r : string) (st : State) :
  broadcastMessage send_fails msg sender r st
    = Some (tt, add_events (broadcast_events send_fails msg sender r st) st)
  ∧ broadcast_targets (clients st) r sender
    = socket <$> filter (λ c, room c = r ∧ socket c ≠ sender) (clients st)
  ∧ (∀ h, h ∈ written_to (broadcast_events send_fails msg sender r st)
          ↔ ∃ c, c ∈ clients st ∧ socket c = h ∧ room c = r ∧ h ≠ sender)
  ∧ (∀ h, h ∈ written_to (broadcast_events send_fails msg sender r st)
          → msg ∈ offered_to h (broadcast_events send_fails msg sender r st))
  ∧ (sender ∉ written_to (broadcast_events send_fails msg sender r st))
  ∧ (∀ c, c ∈ clients st → room c ≠ r →
          (∀ c', c' ∈ clients st → socket c' = socket c → room c' = room c) →
          socket c ∉ written_to (broadcast_events send_fails msg sender r st)).
Proof.
  unfold broadcast_events. split_and!.
  - apply broadcastMessage_run.
  - apply broadcast_targets_filter.
  - intros h. by rewrite written_to_deliver_trace, elem_of_broadcast_targets.
  - intros h Hh. apply offered_to_deliver_trace.
    by apply written_to_deliver_trace in Hh.
  - rewrite written_to_deliver_trace, elem_of_broadcast_targets.
    intros (c & _ & _ & _ & Hne). by apply Hne.
  - intros c Hc Hroom Huniq.
    rewrite written_to_deliver_trace, elem_of_broadcast_targets.
    intros (c' & Hc' & Hsock & Hr & _).
    apply Hroom. rewrite <- (Huniq c' Hc' Hsock). exact Hr.
Qed.

Lemma broadcast_targets_exact_witness :
  6 ∉ written_to
        (broadcast_events never_fails "hi" 4 "general"
           (set_clients
              [mk_client 4 "A" "10.0.0.1" "general";
               mk_client 5 "B" "10.0.0.2" "general";
               mk_client 6 "C" "10.0.0.3" "lobby"] initial_state)).
Proof.
  pose proof (broadcast_targets_exact never_fails "hi" 4 "general"
    (set_clients
       [mk_client 4 "A" "10.0.0.1" "general";
        mk_client 5 "B" "10.0.0.2" "general";
        mk_client 6 "C" "10.0.0.3" "lobby"] initial_state))
    as (_ & _ & _ & _ & _ & H).
  apply (H (mk_client 6 "C" "10.0.0.3" "lobby")).
  - simpl. do 2 right. left.
  - simpl. discriminate.
  - simpl. intros c' Hin Hsock.
    repeat (apply elem_of_cons in Hin as [->|Hin]); simpl in *;
      [lia | lia | reflexivity | by apply elem_of_nil in Hin].
Defined.

Lemma deliver_trace_chunks (send_fails : nat → bool) (k : nat)
    (targets : list Z) (msg : string) :
  ∃ chunks,
    deliver_trace send_fails k targets msg = concat chunks
    ∧ Forall2 (target_chunk msg) targets chunks.
Proof.
  revert k. induction targets as [|sock rest IH]; intros k; simpl.
  - exists []. split; [done | constructor].
  - destruct (send_fails k).
    + destruct (IH (S k)) as (chunks & -> & Hall).
      exists ([EvSend sock msg (-1)] :: chunks). split; [done|].
      constructor; [|done]. exists (-1), []. auto.
    + destruct (IH (S (S k))) as (chunks & -> & Hall).
      exists (cons
                [EvSend sock msg (Z.of_nat (CStr.size msg));
                 EvSend sock CStr.newline (if send_fails (S k) then -1 else 1)]
                chunks).
      split; [done|]. constructor; [|done].
      eexists _, _. split; [done|]. right. eauto.
Qed.

(** C8. Whatever writes fail, the delivery loop runs to its end and hands
    nothing but [()] back to its caller, the registry, the histories and the
    flags are as before, and what it wrote splits into one chunk per target,
    in the order of the target list, each starting with an attempt to write
    the message to that target. *)
Theorem deliver_isolates_failures (send_fails : nat → bool) (targets : list Z)
    (msg : string) (st : State) :
  ∃ st' chunks,
    deliver send_fails targets msg st = Some (tt, st')
    ∧ clients st' = clients st
    ∧ room_history st' = room_history st
    ∧ running st' = running st
    ∧ serverRunning st' = serverRunning st
    ∧ trace st' = trace st ++ concat chunks
    ∧ Forall2 (target_chunk msg) targets chunks.
Proof.
  destruct (deliver_trace_chunks send_fails (length (trace st)) targets msg)
    as (chunks & Heq & Hall).
  exists (add_events (deliver_trace send_fails (length (trace st)) targets msg) st),
    chunks.
  split; [apply deliver_run|]. simpl. by rewrite Heq.
Qed.

(** A failing first target does not keep the second from being written to. *)
Example deliver_after_failure :
  exec (deliver (λ k, bool_decide (k = 0%nat)) [4; 5] "hi") initial_state
  = Some (add_events
            [EvSend 4 "hi" (-1); EvSend 5 "hi" 2; EvSend 5 CStr.newline 1]
            initial_state).
Proof. reflexivity. Qed.

(** ** The phases of the handler *)

Section Phases.

Variable send_fails : nat → bool.

Lemma length_replay_trace (k : nat) (sock : Z) (msgs : list string) :
  length (replay_trace send_fails k sock msgs) = (2 * length msgs)%nat.
Proof.
  revert k. induction msgs as [|m rest IH]; intros k; simpl; [done|].
  rewrite IH. lia.
Qed.

Lemma sendRoomHistory_run (sock : Z) (r : string) (st : State) :
  sendRoomHistory send_fails sock r st
  = Some (tt, add_events
                (replay_trace send_fails (length (trace st)) sock
                   (history_of (room_history st) r)) st).
Proof.
  unfold sendRoomHistory, history_of. rewrite bind_unfold. simpl.
  destruct (room_history st !! r) as [msgs|]; simpl.
  - apply send_lines_run.
  - by rewrite add_events_nil.
Qed.

Lemma greeting_run (sock : Z) (r : RecvResult) (st : State) :
  greeting send_fails sock r st
  = match CStr.string_of_buffer (buffer_after_recv r) with
    | Some raw =>
        Some (CStr.erase_remove CStr.LF raw,
              add_events
                [EvSend sock "Enter your name: "
                   (if send_fails (length (trace st)) then -1 else 17)] st)
    | None => None
    end.
Proof.
  unfold greeting. rewrite bind_unfold.
  change 17%nat with (CStr.size "Enter your name: ").
  rewrite send_string. unfold string_of.
  by destruct (CStr.string_of_buffer (buffer_after_recv r)).
Qed.

Lemma joining_run (sock : Z) (name ip : string) (st : State) :
  joining send_fails sock name ip st
  = Some ("general",
          add_events (join_events send_fails sock name ip st)
            (set_clients
               (push_back (mk_client sock name ip "general") (clients st)) st)).
Proof.
  unfold joining. rewrite bind_unfold. simpl.
  rewrite bind_unfold. unfold send at 1.
  rewrite decide_True by (vm_compute; lia).
  change (string_of_list_ascii (take 22 _)) with confirmation.
  rewrite log_event_add.
  rewrite bind_unfold, sendRoomHistory_run, bind_unfold, broadcastMessage_run.
  unfold mret, M_ret, ret. do 2 f_equal.
  rewrite !add_events_app. f_equal.
  unfold join_events. f_equal.
  f_equal; [f_equal; simpl; rewrite length_app; simpl; lia | ].
  f_equal. cbn [trace add_events set_clients room_history].
  rewrite !length_app, length_replay_trace. cbn [length]. lia.
Qed.

Lemma relay_run (sock : Z) (name r : string) (rr : RecvResult) (now : tm)
    (st : State) :
  relay send_fails sock name r rr now st
  = match CStr.string_of_buffer (buffer_after_recv rr) with
    | Some raw =>
        let full := format_message (nowTimestamp now) name
                      (CStr.erase_remove CStr.LF raw) in
        Some (tt,
              add_events
                (deliver_trace send_fails (length (trace st))
                   (broadcast_targets (clients st) r sock) full)
                (set_room_history (add_to_history (room_history st) r full) st))
    | None => None
    end.
Proof.
  unfold relay, string_of. rewrite bind_unfold.
  destruct (CStr.string_of_buffer (buffer_after_recv rr)) as [raw|]; [|done].
  simpl. rewrite bind_unfold. simpl. by rewrite broadcastMessage_run.
Qed.


Lemma close_all_run (cs : list ClientInfo) (st : State) :
  close_all cs st = Some (tt, add_events (EvClose <$> (socket <$> cs)) st).
Proof.
  revert st. induction cs as [|c rest IH]; intros st; simpl.
  - by rewrite add_events_nil.
  - rewrite bind_unfold. simpl. rewrite IH. by rewrite log_event_add, add_events_app.
Qed.

Lemma stop_run (st : State) :
  stop st
  = Some (tt, set_clients []
                (add_events (EvClose <$> (socket <$> clients st))
                   (set_running false st))).
Proof.
  unfold stop. rewrite bind_unfold. simpl. rewrite bind_unfold. simpl.
  rewrite bind_unfold, close_all_run. done.
Qed.

End Phases.

(** ** Steps of the server *)

Section Steps.

Variable send_fails : nat → bool.

Lemma accept_connection_run (sock : Z) (ip : string) (first : RecvResult)
    (st : State) :
  accept_connection send_fails sock ip first st
  = match CStr.string_of_buffer (buffer_after_recv first) with
    | Some raw =>
        let name := CStr.erase_remove CStr.LF raw in
        let st1 :=
          add_events
            [EvSend sock "Enter your name: "
               (if send_fails (length (trace st)) then -1 else 17)] st in
        Some ((name, "general"),
              add_events (join_events send_fails sock name ip st1)
                (set_clients
                   (push_back (mk_client sock name ip "general") (clients st))
                   st1))
    | None => None
    end.
Proof.
  unfold accept_connection. rewrite bind_unfold, greeting_run.
  destruct (CStr.string_of_buffer (buffer_after_recv first)) as [raw|]; [|done].
  rewrite bind_unfold, joining_run. done.
Qed.

Lemma loop_head_run (sock : Z) (st : State) :
  loop_head sock st
  = if flags st then Some (Parked, st) else Some (Exited, closed sock st).
Proof.
  unfold loop_head, flags. rewrite bind_unfold. cbn [get].
  by destruct (running st && serverRunning st).
Qed.

Lemma after_recv_run (sock : Z) (name r : string) (rr : RecvResult) (now : tm)
    (st : State) :
  after_recv send_fails sock name r rr now st
  = if decide (recv_ret rr <= 0) then Some (Exited, closed sock st)
    else
      match CStr.string_of_buffer (buffer_after_recv rr) with
      | Some raw =>
          if flags st
          then Some (Parked, relayed_from send_fails sock name r raw now st)
          else Some (Exited,
                     closed sock (relayed_from send_fails sock name r raw now st))
      | None => None
      end.
Proof.
  unfold after_recv. destruct (decide (recv_ret rr <= 0)); [done|].
  rewrite bind_unfold, relay_run.
  destruct (CStr.string_of_buffer (buffer_after_recv rr)) as [raw|]; [|done].
  cbn zeta iota beta. rewrite loop_head_run. done.
Qed.

(** [handleClient] is the acceptance of the connection, the head of the
    loop, and then the handler's reactions to its reads. *)
Lemma relay_loop_turns (sock : Z) (name r : string)
    (script : list (RecvResult * tm)) (st : State) :
  (e ← relay_loop send_fails sock name r script;
   match e with
   | Exited => _ ← closing sock; mret Exited
   | Parked => mret Parked
   end) st
  = (e ← loop_head sock;
     match e with
     | Exited => mret Exited
     | Parked => handler_turns send_fails sock name r script
     end) st.
Proof.
  revert st. induction script as [|[rr now] rest IH]; intros st.
  - cbn [relay_loop handler_turns]. rewrite !bind_unfold, loop_head_run.
    cbn [get]. unfold flags. by destruct (running st && serverRunning st).
  - cbn [relay_loop handler_turns]. rewrite !bind_unfold, loop_head_run.
    cbn [get]. unfold flags.
    destruct (running st && serverRunning st); [|done].
    rewrite bind_unfold. unfold after_recv.
    destruct (decide (recv_ret rr <= 0)); [done|].
    rewrite !bind_unfold.
    destruct (relay send_fails sock name r rr now st) as [[[] st1]|]; [|done].
    rewrite <- bind_unfold. apply IH.
Qed.

Lemma handleClient_turns (sock : Z) (ip : string) (first : RecvResult)
    (script : list (RecvResult * tm)) (st : State) :
  handleClient send_fails sock ip first script st
  = (locals ← accept_connection send_fails sock ip first;
     e ← loop_head sock;
     match e with
     | Exited => mret Exited
     | Parked => handler_turns send_fails sock (fst locals) (snd locals) script
     end) st.
Proof.
  unfold handleClient, accept_connection. rewrite !bind_unfold.
  destruct (greeting send_fails sock first st) as [[name st1]|]; [|done].
  rewrite !bind_unfold.
  destruct (joining send_fails sock name ip st1) as [[r st2]|]; [|done].
  apply relay_loop_turns.
Qed.

(** Every step is one of the cases of [step_case]. *)
Lemma step_cases (i : Input) (sys sys' : System) :
  step send_fails i sys = Some sys' → step_case send_fails i sys sys'.
Proof.
  destruct i as [sock ip first|sock rr now| |]; cbn [step].
  - rewrite bind_unfold, accept_connection_run.
    destruct (CStr.string_of_buffer (buffer_after_recv first)) as [raw|] eqn:Hraw;
      [|done].
    cbn zeta iota beta. rewrite bind_unfold, loop_head_run.
    fold (prompted send_fails sock (server sys)).
    fold (joined send_fails sock (CStr.erase_remove CStr.LF raw) ip (server sys)).
    assert (flags (joined send_fails sock (CStr.erase_remove CStr.LF raw) ip
                     (server sys)) = flags (server sys)) as -> by done.
    destruct (flags (server sys)) eqn:Hflags; intros [= <-].
    + by eapply case_accept_parked.
    + by eapply case_accept_exited.
  - destruct (handlers sys !! sock) as [[name r]|] eqn:Hh.
    2:{ intros [= <-]. by eapply case_no_handler. }
    rewrite after_recv_run.
    destruct (decide (recv_ret rr <= 0)).
    { intros [= <-]. by eapply case_leave. }
    destruct (CStr.string_of_buffer (buffer_after_recv rr)) as [raw|] eqn:Hraw;
      [|done].
    destruct (flags (server sys)) eqn:Hflags; intros [= <-].
    + eapply case_relay_parked; eauto. lia.
    + eapply case_relay_exited; eauto. lia.
  - rewrite stop_run. intros [= <-]. by apply case_stop.
  - intros [= <-]. by apply case_signal.
Qed.

Lemma remove_client_push_back (sock : Z) (name ip r : string)
    (cs : list ClientInfo) :
  remove_client sock (push_back (mk_client sock name ip r) cs)
  = remove_client sock cs.
Proof.
  unfold remove_client, push_back. rewrite filter_app, filter_cons.
  rewrite decide_False by (simpl; tauto). by rewrite filter_nil, app_nil_r.
Qed.

(** What one step does to the registry. *)
Lemma step_clients (i : Input) (sys sys' : System) :
  step send_fails i sys = Some sys' →
  match i with
  | Accept sock ip _ =>
      (∃ name, clients (server sys')
               = clients (server sys) ++ [mk_client sock name ip "general"])
      ∨ clients (server sys') = remove_client sock (clients (server sys))
  | Recv sock _ _ =>
      clients (server sys') = clients (server sys)
      ∨ clients (server sys') = remove_client sock (clients (server sys))
  | Stop => clients (server sys') = []
  | Signal => clients (server sys') = clients (server sys)
  end.
Proof.
  intros Hstep.
  destruct (step_cases i sys sys' Hstep)
    as [sock ip first raw -> Hraw Hflags ->|sock ip first raw -> Hraw Hflags ->
       |sock rr now -> Hnone ->|sock rr now name r -> Hsome Hret ->
       |sock rr now name r raw -> Hsome Hret Hraw Hflags ->
       |sock rr now name r raw -> Hsome Hret Hraw Hflags ->
       | -> -> | -> ->]; cbn [server clients closed joined relayed_from
         add_events set_clients set_room_history]; eauto.
  right. apply remove_client_push_back.
Qed.

(** What one step does to the histories. *)
Lemma step_history (i : Input) (sys sys' : System) :
  step send_fails i sys = Some sys' →
  room_history (server sys') = room_history (server sys)
  ∨ ∃ sock rr now name raw r,
      i = Recv sock rr now
      ∧ handlers sys !! sock = Some (name, r)
      ∧ 0 < recv_ret rr
      ∧ CStr.string_of_buffer (buffer_after_recv rr) = Some raw
      ∧ room_history (server sys')
        = add_to_history (room_history (server sys)) r
            (format_message (nowTimestamp now) name
               (CStr.erase_remove CStr.LF raw)).
Proof.
  intros Hstep.
  destruct (step_cases i sys sys' Hstep)
    as [sock ip first raw -> Hraw Hflags ->|sock ip first raw -> Hraw Hflags ->
       |sock rr now -> Hnone ->|sock rr now name r -> Hsome Hret ->
       |sock rr now name r raw -> Hsome Hret Hraw Hflags ->
       |sock rr now name r raw -> Hsome Hret Hraw Hflags ->
       | -> -> | -> ->]; cbn [server room_history closed joined relayed_from
         add_events set_clients set_room_history]; auto.
  - right. by exists sock, rr, now, name, raw, r.
  - right. by exists sock, rr, now, name, raw, r.
Qed.

Lemma step_keeps_unregistered (s : Z) (i : Input) (sys sys' : System) :
  ¬ registers s i →
  step send_fails i sys = Some sys' →
  s ∉ socket <$> clients (server sys) →
  s ∉ socket <$> clients (server sys').
Proof.
  intros Hreg Hstep Hout. apply step_clients in Hstep.
  assert (∀ sock, s ∉ socket <$> remove_client sock (clients (server sys)))
    as Hremoved.
  { intros sock. unfold remove_client. intros (c & -> & Hc)%list_elem_of_fmap.
    apply list_elem_of_filter in Hc as [_ Hc].
    apply Hout, list_elem_of_fmap. eauto. }
  destruct i as [sock ip first|sock rr now| |]; simpl in *.
  - destruct Hstep as [[name ->]| ->]; [|done].
    rewrite fmap_app, elem_of_app. simpl.
    rewrite list_elem_of_singleton. intros [?|?]; [done | by apply Hreg].
  - destruct Hstep as [->| ->]; done.
  - rewrite Hstep. simpl. apply not_elem_of_nil.
  - by rewrite Hstep.
Qed.

Lemma run_keeps_unregistered (s : Z) (inputs : list Input) (sys sys' : System) :
  Forall (λ i, ¬ registers s i) inputs →
  run send_fails inputs sys = Some sys' →
  s ∉ socket <$> clients (server sys) →
  s ∉ socket <$> clients (server sys').
Proof.
  intros Hall. revert sys.
  induction Hall as [|i rest Hi _ IH]; intros sys; simpl.
  - by intros [= <-].
  - destruct (step send_fails i sys) as [sys1|] eqn:Hstep; [|done].
    intros Hrun Hout. apply (IH sys1 Hrun).
    by apply (step_keeps_unregistered s i sys).
Qed.

End Steps.

(** ** Deregistration *)

Lemma remove_client_idem (s : Z) (cs : list ClientInfo) :
  remove_client s (remove_client s cs) = remove_client s cs.
Proof.
  unfold remove_client. induction cs as [|c rest IH]; [done|].
  rewrite filter_cons. destruct (decide (socket c ≠ s)) as [Hne|Heq].
  - rewrite filter_cons, decide_True by done. by rewrite IH.
  - exact IH.
Qed.

Lemma remove_client_absent (s : Z) (cs : list ClientInfo) :
  s ∉ socket <$> cs → remove_client s cs = cs.
Proof.
  unfold remove_client. induction cs as [|c rest IH]; [done|].
  rewrite fmap_cons, not_elem_of_cons. intros [Hne Hrest].
  rewrite filter_cons, decide_True by done. by rewrite IH.
Qed.

Lemma remove_client_gone (s : Z) (cs : list ClientInfo) :
  s ∉ socket <$> remove_client s cs.
Proof.
  unfold remove_client. intros (c & -> & Hc)%list_elem_of_fmap.
  by apply list_elem_of_filter in Hc as [Hne _].
Qed.

Lemma unregistered_not_target (s : Z) (cs : list ClientInfo) (r : string) (sender : Z) :
  s ∉ socket <$> cs → s ∉ broadcast_targets cs r sender.
Proof.
  intros Hout (c & Hc & <- & _)%elem_of_broadcast_targets.
  apply Hout, list_elem_of_fmap. eauto.
Qed.

(** C7. [removeClient] never fails; doing it twice is doing it once; for a
    handle that is not registered it leaves the state as it is; and after
    it, as long as the handle is not accepted again, no broadcast computes
    that handle as a target or writes to it, whatever the server does in
    between. *)
Theorem deregister_idempotent (send_fails : nat → bool) (s : Z) (st : State) :
  removeClient s st
    = Some (tt, set_clients (remove_client s (clients st)) st)
  ∧ (removeClient s ≫= λ _, removeClient s) st = removeClient s st
  ∧ (s ∉ socket <$> clients st → removeClient s st = Some (tt, st))
  ∧ (∀ hs inputs sys',
       Forall (λ i, ¬ registers s i) inputs →
       run send_fails inputs
         (mk_system (set_clients (remove_client s (clients st)) st) hs)
         = Some sys' →
       ∀ msg sender r,
         (s ∉ broadcast_targets (clients (server sys')) r sender)
         ∧ (s ∉ written_to
                  (broadcast_events send_fails msg sender r (server sys')))).
Proof.
  split_and!.
  - reflexivity.
  - rewrite bind_unfold. unfold removeClient, modify. simpl.
    by rewrite remove_client_idem.
  - intros Hout. unfold removeClient, modify.
    by rewrite remove_client_absent, set_clients_same.
  - intros hs inputs sys' Hall Hrun msg sender r.
    assert (s ∉ socket <$> clients (server sys')) as Hout.
    { apply (run_keeps_unregistered send_fails s inputs _ sys' Hall Hrun).
      simpl. apply remove_client_gone. }
    split; [by apply unregistered_not_target|].
    unfold broadcast_events. rewrite written_to_deliver_trace.
    by apply unregistered_not_target.
Qed.

Lemma deregister_idempotent_witness :
  removeClient 9 two_clients = Some (tt, two_clients)
  ∧ match
      run never_fails
        [Recv 5 (RecvBytes ("hi" +:+ CStr.newline)) (mk_tm 10 0 0);
         Accept 6 "10.0.0.3" (RecvBytes ("C" +:+ CStr.newline))]
        (mk_system (set_clients (remove_client 4 (clients two_clients)) two_clients)
           {[ 5 := ("B", "general") ]})
    with
    | Some sys' => 4 ∉ broadcast_targets (clients (server sys')) "general" 5
    | None => False
    end.
Proof.
  split.
  - apply (deregister_idempotent never_fails 9 two_clients).
    simpl. rewrite !not_elem_of_cons. split_and!; [lia | lia | apply not_elem_of_nil].
  - destruct (run never_fails _ _) as [sys'|] eqn:Hrun.
    + pose proof (deregister_idempotent never_fails 4 two_clients)
        as (_ & _ & _ & H).
      refine (proj1 (H _ _ _ _ Hrun "hi" 5 "general")).
      repeat constructor; simpl; [tauto | lia].
    + vm_compute in Hrun. discriminate Hrun.
Defined.

(** ** Registration *)


(** The registration itself looks at nothing: on a registry written down by
    hand that already holds handle 5, a second session on 5 is appended.
    No run of the server gets there, see [registry_handles_unique]. *)
Example register_on_handmade_registry :
  ∃ st',
    joining never_fails 5 "C" "10.0.0.3" two_clients = Some ("general", st')
    ∧ clients st'
      = [mk_client 4 "A" "10.0.0.1" "general"; mk_client 5 "B" "10.0.0.2" "general";
         mk_client 5 "C" "10.0.0.3" "general"].
Proof. eexists. split; [apply joining_run | reflexivity]. Qed.










Section Descriptors.

Variable send_fails : nat → bool.



End Descriptors.



(** ** The greeting *)

(** After an end of stream or a read error the buffer is as [memset] left
    it, and the name read from it is empty. *)
Lemma name_after_disconnect (r : RecvResult) :
  recv_ret r <= 0 →
  CStr.string_of_buffer (buffer_after_recv r) = Some EmptyString.
Proof.
  intros Hret.
  assert (received r = []) as Hnone.
  { destruct r as [|data]; [done|]. simpl in Hret.
    destruct (take BUFFER_SIZE (list_ascii_of_string data)) eqn:Htake; [|simpl in Hret; lia].
    unfold received. exact Htake. }
  unfold buffer_after_recv. rewrite Hnone. reflexivity.
Qed.

(** The handler does not notice a peer that went away before naming itself:
    the session is registered under the empty name, confirmed and announced
    like any other. *)
Lemma disconnect_at_greeting_joins (send_fails : nat → bool) (sock : Z)
    (ip : string) (first : RecvResult) (st : State) :
  recv_ret first <= 0 →
  ∃ st',
    accept_connection send_fails sock ip first st = Some (("", "general"), st')
    ∧ clients st' = clients st ++ [mk_client sock "" ip "general"]
    ∧ ∃ ret ret', trace st'
        = trace st
          ++ [EvSend sock "Enter your name: " ret]
          ++ [EvSend sock confirmation ret']
          ++ replay_trace send_fails (S (S (length (trace st)))) sock
               (history_of (room_history st) "general")
          ++ deliver_trace send_fails
               (S (S (length (trace st)))
                + 2 * length (history_of (room_history st) "general"))
               (broadcast_targets
                  (clients st ++ [mk_client sock "" ip "general"]) "general" sock)
               " joined the chat".
Proof.
  intros Hret. rewrite accept_connection_run, (name_after_disconnect first Hret).
  eexists. split; [reflexivity|]. split; [reflexivity|].
  eexists _, _. cbn [trace add_events set_clients]. unfold join_events.
  cbn [trace add_events set_clients room_history clients].
  rewrite <- !app_assoc. do 3 f_equal.
  rewrite !length_app. cbn [length]. unfold push_back.
  replace (length (trace st) + 1)%nat with (S (length (trace st))) by lia.
  reflexivity.
Qed.

(** C3 (evaluation). The peer on socket 6 closes the connection without
    sending a name while two sessions sit in room general: the handler still
    sends the confirmation, announces an unnamed newcomer to both sessions,
    and only then closes. *)
Theorem disconnect_before_name_side_effects :
  handleClient never_fails 6 "10.0.0.3" (RecvBytes "")
    [(RecvBytes "", mk_tm 10 0 0)] two_clients
  = Some (Exited,
          add_events
            [EvSend 6 "Enter your name: " 17;
             EvSend 6 confirmation 22;
             EvSend 4 " joined the chat" 16; EvSend 4 CStr.newline 1;
             EvSend 5 " joined the chat" 16; EvSend 5 CStr.newline 1;
             EvClose 6]
            two_clients)
  ∧ ∃ st',
      accept_connection never_fails 6 "10.0.0.3" (RecvBytes "") two_clients
        = Some (("", "general"), st')
      ∧ mk_client 6 "" "10.0.0.3" "general" ∈ clients st'.
Proof.
  split; [vm_compute; reflexivity|].
  eexists. split; [vm_compute; reflexivity|].
  simpl. do 2 right. left.
Qed.

(** ** The join confirmation *)

Example prompt_bytes :
  exec (greeting never_fails 4 (RecvBytes ("A" +:+ CStr.newline))) initial_state
  = Some (add_events [EvSend 4 "Enter your name: " 17] initial_state).
Proof. vm_compute. reflexivity. Qed.

(** C4 (evaluation). The confirmation [send] is given the length
    [room.size() + 15 = 22], one more than the twenty-one characters of the
    line, so the terminating NUL of the C string goes out after the
    newline. *)
Theorem join_confirmation_bytes (send_fails : nat → bool) (sock : Z)
    (name ip : string) (st : State) :
  ∃ st' rest,
    joining send_fails sock name ip st = Some ("general", st')
    ∧ trace st'
      = trace st
        ++ EvSend sock confirmation
             (if send_fails (length (trace st)) then -1 else 22) :: rest
    ∧ confirmation
      = "Joined room: general" +:+ CStr.newline +:+ String CStr.NUL EmptyString
    ∧ String.length confirmation = 22%nat
    ∧ String.length ("Joined room: general" +:+ CStr.newline) = 21%nat
    ∧ confirmation ≠ "Joined room: general" +:+ CStr.newline.
Proof.
  eexists _, _. split; [apply joining_run|].
  split; [reflexivity|]. split; [reflexivity|]. split; [reflexivity|].
  split; [reflexivity|]. discriminate.
Qed.

(** ** Room history *)

Lemma history_of_add_same (h : gmap string (list string)) (r msg : string) :
  history_of (add_to_history h r msg) r
  = (if decide (MAX_HISTORY ≤ length (history_of h r))%nat
     then drop 1 (history_of h r) else history_of h r) ++ [msg].
Proof. unfold add_to_history, history_of at 1. by rewrite lookup_insert_eq. Qed.

Lemma history_of_add_other (h : gmap string (list string)) (r r' msg : string) :
  r ≠ r' → history_of (add_to_history h r msg) r' = history_of h r'.
Proof.
  intros Hne. unfold add_to_history, history_of at 1.
  by rewrite lookup_insert_ne.
Qed.

Lemma run_appends_snoc (h : gmap string (list string))
    (calls : list (string * string)) (c : string * string) :
  run_appends h (calls ++ [c]) = add_to_history (run_appends h calls) (fst c) (snd c).
Proof. unfold run_appends. by rewrite foldl_app. Qed.

Lemma appended_to_snoc (r : string) (calls : list (string * string))
    (c : string * string) :
  appended_to r (calls ++ [c])
  = appended_to r calls ++ (if decide (fst c = r) then [snd c] else []).
Proof.
  unfold appended_to. rewrite filter_app, fmap_app. f_equal.
  rewrite filter_cons, filter_nil. by destruct (decide (fst c = r)).
Qed.

(** The stored sequence is the tail of what was appended, at most the cap
    long. *)
Lemma history_is_tail (calls : list (string * string)) (r : string) :
  history_of (run_appends ∅ calls) r
  = drop (length (appended_to r calls) - MAX_HISTORY) (appended_to r calls).
Proof.
  induction calls as [|[r' msg] calls IH] using rev_ind.
  - done.
  - rewrite run_appends_snoc, appended_to_snoc. simpl.
    destruct (decide (r' = r)) as [->|Hne].
    + rewrite history_of_add_same, IH.
      set (sent := appended_to r calls).
      rewrite length_drop, length_app. simpl. unfold MAX_HISTORY.
      case_decide.
      * rewrite drop_drop, drop_app_le by lia. do 2 f_equal. lia.
      * replace (length sent - 50)%nat with 0%nat by lia.
        replace (length sent + 1 - 50)%nat with 0%nat by lia.
        done.
    + rewrite history_of_add_other by done. by rewrite IH, app_nil_r.
Qed.

Example history_of_unknown_room : history_of ∅ "general" = [].
Proof. reflexivity. Qed.

(** Calls made one after the other, no two of them overlapping: starting
    from the empty store the stored sequence of every room is at most [MAX_HISTORY = 50]
    long; when more than 50 messages were appended to a room its sequence is
    exactly 50 long and is the last 50 of them in append order; and an append
    to a room that holds 50 drops the oldest entry and puts the new one
    last. *)
Lemma serial_appends_capped (calls : list (string * string)) (r : string) :
  MAX_HISTORY = 50%nat
  ∧ (length (history_of (run_appends ∅ calls) r) ≤ MAX_HISTORY)%nat
  ∧ ((MAX_HISTORY < length (appended_to r calls))%nat →
     length (history_of (run_appends ∅ calls) r) = MAX_HISTORY
     ∧ history_of (run_appends ∅ calls) r
       = drop (length (appended_to r calls) - MAX_HISTORY) (appended_to r calls))
  ∧ (∀ msg,
       length (history_of (run_appends ∅ calls) r) = MAX_HISTORY →
       history_of (run_appends ∅ (calls ++ [(r, msg)])) r
       = drop 1 (history_of (run_appends ∅ calls) r) ++ [msg])
  ∧ (∀ msg,
       (length (history_of (run_appends ∅ calls) r) < MAX_HISTORY)%nat →
       history_of (run_appends ∅ (calls ++ [(r, msg)])) r
       = history_of (run_appends ∅ calls) r ++ [msg]).
Proof.
  split; [reflexivity|]. split_and!.
  - rewrite history_is_tail, length_drop. unfold MAX_HISTORY. lia.
  - intros Hmany. rewrite history_is_tail, length_drop.
    unfold MAX_HISTORY in *. split; [lia | done].
  - intros msg Hfull. rewrite run_appends_snoc. simpl.
    rewrite history_of_add_same. by rewrite decide_True by lia.
  - intros msg Hroom. rewrite run_appends_snoc. simpl.
    rewrite history_of_add_same. by rewrite decide_False by lia.
Qed.

Example serial_appends_51 :
  let calls := (λ n, ("general", String (ascii_of_nat (65 + n)) EmptyString))
                 <$> seq 0 51 in
  length (history_of (run_appends ∅ calls) "general") = MAX_HISTORY
  ∧ history_of (run_appends ∅ calls) "general"
    = drop (length (appended_to "general" calls) - MAX_HISTORY)
        (appended_to "general" calls).
Proof.
  intros calls.
  pose proof (serial_appends_capped calls "general") as (_ & _ & Hmany & _).
  apply Hmany. vm_compute. lia.
Qed.

(** Fifty-one appends: the first message is gone, the second is now the
    oldest. *)
Example history_after_51 :
  let calls := (λ n, ("general", String (ascii_of_nat (65 + n)) EmptyString))
                 <$> seq 0 51 in
  head (history_of (run_appends ∅ calls) "general") = Some "B"
  ∧ length (history_of (run_appends ∅ calls) "general") = 50%nat.
Proof. vm_compute. done. Qed.

(** *** Calls from several threads *)

Lemma pc_of_goto (t : nat) (pc : History.Pc) (h : gmap string (list string))
    (s : History.Store) :
  History.pc_of (History.goto t pc h s) t = pc.
Proof. unfold History.pc_of. simpl. by rewrite lookup_insert_eq. Qed.

Lemma history_of_insert (h : gmap string (list string)) (r : string)
    (l : list string) :
  history_of (<[r := l]> h) r = l.
Proof. unfold history_of. by rewrite lookup_insert_eq. Qed.

(** A call no other statement interrupts does what [add_to_history]
    says. *)
Lemma whole_call_run (t : nat) (c : string * string) (s : History.Store) :
  History.pc_of s t = History.Idle →
  ∃ s', History.run (History.whole_call t c) s = Some s'
        ∧ History.rooms s' = add_to_history (History.rooms s) (fst c) (snd c)
        ∧ History.pc_of s' t = History.Idle.
Proof.
  intros Hidle. destruct c as [r msg]. unfold History.whole_call.
  cbn [History.run History.act fst snd]. rewrite Hidle.
  rewrite pc_of_goto. cbn [History.run History.act History.rooms History.goto].
  rewrite pc_of_goto. cbn [History.rooms History.goto].
  rewrite history_of_insert. unfold add_to_history.
  destruct (decide (MAX_HISTORY ≤ length (history_of (History.rooms s) r))%nat)
    as [Hfull|Hroom].
  - cbn [History.run History.act]. rewrite pc_of_goto.
    cbn [History.rooms History.goto]. rewrite history_of_insert.
    destruct (history_of (History.rooms s) r) as [|old rest] eqn:Hh;
      [unfold MAX_HISTORY in Hfull; simpl in Hfull; lia|].
    cbn [History.run History.act]. rewrite pc_of_goto.
    cbn [History.rooms History.goto]. rewrite history_of_insert.
    eexists. split; [reflexivity|]. split; [|apply pc_of_goto].
    cbn [History.rooms History.goto drop]. by rewrite !insert_insert_eq.
  - cbn [History.run History.act]. rewrite pc_of_goto.
    cbn [History.rooms History.goto]. rewrite history_of_insert.
    cbn [History.run History.act]. rewrite pc_of_goto.
    eexists. split; [reflexivity|]. split; [|apply pc_of_goto].
    cbn [History.rooms History.goto]. by rewrite insert_insert_eq.
Qed.

Lemma history_run_app (sch1 sch2 : list History.Action) (s : History.Store) :
  History.run (sch1 ++ sch2) s = History.run sch1 s ≫= History.run sch2.
Proof.
  revert s. induction sch1 as [|a sch1 IH]; intros s; [done|].
  simpl. destruct (History.act a s) as [s'|]; [apply IH | done].
Qed.

(** Calls that do not overlap leave what [run_appends] computes. *)
Lemma serial_run (t : nat) (calls : list (string * string)) (s : History.Store) :
  History.pc_of s t = History.Idle →
  ∃ s', History.run (History.serial t calls) s = Some s'
        ∧ History.rooms s' = run_appends (History.rooms s) calls
        ∧ History.pc_of s' t = History.Idle.
Proof.
  revert s. induction calls as [|c calls IH]; intros s Hidle.
  - by exists s.
  - destruct (whole_call_run t c s Hidle) as (s1 & Hrun1 & Hrooms1 & Hidle1).
    destruct (IH s1 Hidle1) as (s2 & Hrun2 & Hrooms2 & Hidle2).
    exists s2. split_and!; [|by rewrite Hrooms2, Hrooms1 | done].
    unfold History.serial. rewrite bind_cons.
    rewrite history_run_app, Hrun1. exact Hrun2.
Qed.

(** C2. The cap does not hold of the code: [addToHistory] is called by the
    handler threads outside every [lock_guard], and with the statements of
    two calls alternating as in [History.racing] all calls return and room
    general is left with fifty-one entries, one more than [MAX_HISTORY];
    the oldest of the entries kept is not the fifty-first from the end.
    When no two calls overlap the store is what the calls give one after
    the other, and the cap holds. *)
Theorem racing_appends_exceed_cap :
  (∃ s',
     History.run History.racing History.initial = Some s'
     ∧ map_Forall (λ _ pc, pc = History.Idle) (History.threads s')
     ∧ length (History.called History.racing) = 52%nat
     ∧ history_of (History.rooms s') "general" = replicate 49 "m" ++ ["x"; "y"]
     ∧ length (history_of (History.rooms s') "general") = 51%nat
     ∧ (MAX_HISTORY < length (history_of (History.rooms s') "general"))%nat)
  ∧ (∀ t calls,
       ∃ s',
         History.run (History.serial t calls) History.initial = Some s'
         ∧ History.rooms s' = run_appends ∅ calls
         ∧ ∀ r, (length (history_of (History.rooms s') r) ≤ MAX_HISTORY)%nat).
Proof.
  split.
  - eexists. split; [vm_compute; reflexivity|].
    split_and!; [|vm_compute; reflexivity..| vm_compute; lia].
    apply (bool_decide_unpack _). vm_compute. reflexivity.
  - intros t calls.
    destruct (serial_run t calls History.initial) as (s' & Hrun & Hrooms & _);
      [done|].
    exists s'. split_and!; [done..|].
    intros r. rewrite Hrooms, history_is_tail, length_drop.
    unfold MAX_HISTORY. lia.
Qed.

(** ** The relay loop *)


(** A read that leaves room for the terminator and brings no NUL is read
    back whole. *)
Lemma string_of_received (data : string) :
  (String.length data < BUFFER_SIZE)%nat →
  ¬ CStr.occurs CStr.NUL data →
  CStr.string_of_buffer (buffer_after_recv (RecvBytes data)) = Some data.
Proof.
  intros Hlen Hnul. unfold buffer_after_recv, received.
  rewrite take_ge by (rewrite length_list_ascii_of_string; lia).
  rewrite length_list_ascii_of_string.
  destruct (BUFFER_SIZE - String.length data)%nat as [|n] eqn:Hn; [lia|].
  by apply string_of_buffer_text.
Qed.

Lemma recv_ret_line (data : string) :
  (0 < String.length data < BUFFER_SIZE)%nat →
  recv_ret (RecvBytes data) = Z.of_nat (String.length data).
Proof.
  intros Hlen. unfold recv_ret, received.
  rewrite take_ge by (rewrite length_list_ascii_of_string; lia).
  by rewrite length_list_ascii_of_string.
Qed.

Lemma digit_char_is_digit (d : Z) : 0 <= d <= 9 → is_digit (digit_char d).
Proof.
  intros Hd. unfold is_digit, digit_char.
  rewrite nat_ascii_embedding by lia. lia.
Qed.

Lemma nowTimestamp_shape (t : tm) : tm_in_range t → is_HH_MM_SS (nowTimestamp t).
Proof.
  intros (Hh & Hm & Hs). unfold is_HH_MM_SS, nowTimestamp, two_digits.
  eexists _, _, _, _, _, _. split; [reflexivity|].
  split_and!; apply digit_char_is_digit;
    first [ apply Z.mod_pos_bound; lia
          | split; [apply Z.div_pos; lia | apply Z.div_le_upper_bound; lia] ]
    || (pose proof (Z.mod_pos_bound (tm_hour t) 10);
        pose proof (Z.mod_pos_bound (tm_min t) 10);
        pose proof (Z.mod_pos_bound (tm_sec t) 10); lia).
Qed.




Lemma string_of_buffer_cut (bytes rest : list ascii) :
  CStr.string_of_buffer (bytes ++ CStr.NUL :: rest) = Some (CStr.until_nul bytes).
Proof.
  induction bytes as [|c bytes IH]; simpl.
  - by destruct (decide (CStr.NUL = CStr.NUL)).
  - destruct (decide (c = CStr.NUL)); [done|]. by rewrite IH.
Qed.

Lemma string_of_buffer_inner_nul (bytes rest : list ascii) :
  CStr.NUL ∈ bytes →
  CStr.string_of_buffer (bytes ++ rest) = Some (CStr.until_nul bytes).
Proof.
  induction bytes as [|c bytes IH]; simpl; [by intros ?%elem_of_nil|].
  intros Hin. destruct (decide (c = CStr.NUL)) as [|Hne]; [done|].
  apply elem_of_cons in Hin as [?|Hin]; [congruence|]. by rewrite IH.
Qed.

Lemma string_of_buffer_no_nul (bytes : list ascii) :
  CStr.NUL ∉ bytes → CStr.string_of_buffer bytes = None.
Proof.
  induction bytes as [|c bytes IH]; simpl; [done|].
  intros [Hne Hno]%not_elem_of_cons.
  destruct (decide (c = CStr.NUL)); [congruence|]. by rewrite IH.
Qed.

Lemma length_received (rr : RecvResult) : (length (received rr) ≤ BUFFER_SIZE)%nat.
Proof. destruct rr as [|data]; simpl; [lia|]. rewrite length_take. lia. Qed.

(** What [string(buffer)] gives after a read. *)
Lemma string_of_read (rr : RecvResult) :
  CStr.string_of_buffer (buffer_after_recv rr)
  = if decide (terminated rr) then Some (CStr.until_nul (received rr)) else None.
Proof.
  unfold buffer_after_recv. destruct (decide (terminated rr)) as [[Hlen|Hnul]|Hno].
  - destruct (BUFFER_SIZE - length (received rr))%nat as [|n] eqn:Hn; [lia|].
    apply string_of_buffer_cut.
  - by apply string_of_buffer_inner_nul.
  - assert (¬ (length (received rr) < BUFFER_SIZE)%nat) as Hlen
      by (intros ?; apply Hno; by left).
    assert (CStr.NUL ∉ received rr) as Hnul by (intros ?; apply Hno; by right).
    replace (BUFFER_SIZE - length (received rr))%nat with 0%nat by lia.
    simpl. rewrite app_nil_r. by apply string_of_buffer_no_nul.
Qed.





Example relay_empty_line :
  exec (relay never_fails 4 "A" "general" (RecvBytes CStr.newline) (mk_tm 10 0 0))
    two_clients
  = Some (add_events [EvSend 5 "[10:00:00] A: " 14; EvSend 5 CStr.newline 1]
            (set_room_history {[ "general" := ["[10:00:00] A: "] ]} two_clients)).
Proof. vm_compute. reflexivity. Qed.

(** ** Join announcements and the history *)

Lemma elem_of_history_add (h : gmap string (list string)) (r r' msg entry : string) :
  entry ∈ history_of (add_to_history h r msg) r' →
  entry ∈ history_of h r' ∨ entry = msg.
Proof.
  destruct (decide (r = r')) as [<-|Hne].
  - rewrite history_of_add_same, elem_of_app, list_elem_of_singleton.
    intros [Hold|?]; [left | by right].
    case_decide; [|done]. by apply (subseteq_drop 1 (history_of h r)).
  - rewrite history_of_add_other by done. auto.
Qed.

Lemma relayed_app_l (done more : list Input) (entry : string) :
  relayed done entry → relayed (done ++ more) entry.
Proof.
  intros (sock & rr & now & name & raw & Hin & Hraw & ->).
  exists sock, rr, now, name, raw. rewrite elem_of_app. auto.
Qed.

Lemma broadcast_targets_newcomer (cs : list ClientInfo) (sock : Z)
    (name ip r : string) :
  broadcast_targets (push_back (mk_client sock name ip r) cs) r sock
  = broadcast_targets cs r sock.
Proof.
  unfold push_back. rewrite !broadcast_targets_filter, filter_app, fmap_app.
  rewrite filter_cons, decide_False by (simpl; tauto).
  by rewrite filter_nil, app_nil_r.
Qed.

Lemma offered_to_app (h : Z) (evs1 evs2 : list IOEvent) :
  offered_to h (evs1 ++ evs2) = offered_to h evs1 ++ offered_to h evs2.
Proof. apply omap_app. Qed.

Lemma offered_to_replay_trace (send_fails : nat → bool) (k : nat) (sock h : Z)
    (msgs : list string) (line : string) :
  line ∈ offered_to h (replay_trace send_fails k sock msgs) →
  line ∈ msgs ∨ line = CStr.newline.
Proof.
  revert k. induction msgs as [|m rest IH]; intros k; simpl.
  - by intros ?%elem_of_nil.
  - case_decide; simpl; rewrite ?elem_of_cons; [|intros ?%IH; tauto].
    intros [->|[->|?%IH]]; tauto.
Qed.

Section HistoryInvariant.

Variable send_fails : nat → bool.

Lemma step_history_relayed (i : Input) (sys sys' : System) (done : list Input) :
  (∀ r entry, entry ∈ history_of (room_history (server sys)) r → relayed done entry) →
  step send_fails i sys = Some sys' →
  ∀ r entry, entry ∈ history_of (room_history (server sys')) r →
    relayed (done ++ [i]) entry.
Proof.
  intros Hinv Hstep r entry.
  destruct (step_history send_fails i sys sys' Hstep)
    as [->|(sock & rr & now & name & raw & r' & -> & Hsome & Hret & Hraw & ->)].
  - intros Hin. by apply relayed_app_l, (Hinv r).
  - intros Hin. apply elem_of_history_add in Hin as [Hold| ->].
    + by apply relayed_app_l, (Hinv r).
    + exists sock, rr, now, name, raw. rewrite elem_of_app, list_elem_of_singleton. auto.
Qed.

Lemma run_history_relayed (inputs done : list Input) (sys sys' : System) :
  (∀ r entry, entry ∈ history_of (room_history (server sys)) r → relayed done entry) →
  run send_fails inputs sys = Some sys' →
  ∀ r entry, entry ∈ history_of (room_history (server sys')) r →
    relayed (done ++ inputs) entry.
Proof.
  revert done sys. induction inputs as [|i rest IH]; intros done sys Hinv; simpl.
  - intros [= <-]. by rewrite app_nil_r.
  - destruct (step send_fails i sys) as [sys1|] eqn:Hstep; [|done].
    intros Hrun r entry Hin.
    replace (done ++ i :: rest) with ((done ++ [i]) ++ rest)
      by (by rewrite <- app_assoc).
    apply (IH (done ++ [i]) sys1) with (r := r); [|done..].
    by apply (step_history_relayed i sys).
Qed.

End HistoryInvariant.

(** C10. The joining phase registers the newcomer, writes the announcement
    [name joined the chat] to every other session of the room, and leaves
    every history as it was; so does the whole step that accepts a
    connection.  In every run of the server from its start, each entry of
    each room's history was formatted by the relay loop from one of the
    reads, as [[HH:MM:SS] name: text]; so every line the history replay
    offers to a newcomer is such a relayed message. *)
Theorem announcement_not_in_history (send_fails : nat → bool) :
  (∀ sock name ip st,
     ∃ st' evs,
       joining send_fails sock name ip st = Some ("general", st')
       ∧ room_history st' = room_history st
       ∧ clients st' = clients st ++ [mk_client sock name ip "general"]
       ∧ trace st' = trace st ++ evs
       ∧ ∀ h, h ∈ broadcast_targets (clients st) "general" sock →
              (name +:+ " joined the chat") ∈ offered_to h evs)
  ∧ (∀ sock ip first sys sys',
       step send_fails (Accept sock ip first) sys = Some sys' →
       room_history (server sys') = room_history (server sys))
  ∧ (∀ inputs sys',
       run send_fails inputs initial_system = Some sys' →
       (∀ r entry,
          entry ∈ history_of (room_history (server sys')) r →
          relayed inputs entry)
       ∧ (Forall well_timed inputs →
          ∀ r entry,
            entry ∈ history_of (room_history (server sys')) r →
            ∃ ts name text,
              is_HH_MM_SS ts
              ∧ entry = "[" +:+ ts +:+ "] " +:+ name +:+ ": " +:+ text)
       ∧ (∀ k sock line,
            line ∈ lines_offered_to sock
                     (replay_trace send_fails k sock
                        (history_of (room_history (server sys')) "general")) →
            relayed inputs line)).
Proof.
  split_and!.
  - intros sock name ip st.
    exists (add_events (join_events send_fails sock name ip st)
              (set_clients
                 (push_back (mk_client sock name ip "general") (clients st)) st)),
      (join_events send_fails sock name ip st).
    split; [apply joining_run|]. split_and!; [reflexivity..|].
    intros h Hh. unfold join_events.
    rewrite !offered_to_app, !elem_of_app. do 2 right.
    apply offered_to_deliver_trace. by rewrite broadcast_targets_newcomer.
  - intros sock ip first sys sys' Hstep.
    destruct (step_history send_fails _ sys sys' Hstep)
      as [->|(? & ? & ? & ? & ? & ? & Heq & _)]; [done | discriminate Heq].
  - intros inputs sys' Hrun.
    assert (∀ r entry,
              entry ∈ history_of (room_history (server sys')) r →
              relayed inputs entry) as Hinv.
    { apply (run_history_relayed send_fails inputs [] initial_system sys');
        [|done].
      intros r entry Hin. by apply elem_of_nil in Hin. }
    split_and!; [done | |].
    + intros Htimed r entry Hin.
      destruct (Hinv r entry Hin) as (sock & rr & now & name & raw & Hi & _ & ->).
      exists (nowTimestamp now), name, (CStr.erase_remove CStr.LF raw).
      split; [|done]. apply nowTimestamp_shape.
      rewrite Forall_forall in Htimed. apply (Htimed _ Hi).
    + intros k sock line [Hline Hin]%list_elem_of_filter.
      apply offered_to_replay_trace in Hin as [Hin|?]; [|done].
      by apply (Hinv "general").
Qed.

(** C joins while A and B are registered: the announcement is in what the
    joining phase put on the trace for B; and after the scenario every
    stored entry is a relayed message. *)
Lemma announcement_not_in_history_witness :
  (∃ st' evs,
     joining never_fails 6 "C" "10.0.0.3" two_clients = Some ("general", st')
     ∧ trace st' = trace two_clients ++ evs
     ∧ "C" +:+ " joined the chat" ∈ offered_to 5 evs)
  ∧ match run never_fails scenario initial_system with
    | Some sys' =>
        ∀ r entry,
          entry ∈ history_of (room_history (server sys')) r →
          ∃ ts name text,
            is_HH_MM_SS ts
            ∧ entry = "[" +:+ ts +:+ "] " +:+ name +:+ ": " +:+ text
    | None => False
    end.
Proof.
  pose proof (announcement_not_in_history never_fails) as (Hjoin & _ & Hruns).
  split.
  - destruct (Hjoin 6 "C" "10.0.0.3" two_clients)
      as (st' & evs & Hrun & _ & _ & Htrace & Hoffer).
    exists st', evs. split_and!; [done..|]. apply Hoffer.
    vm_compute. right. left.
  - destruct (run never_fails scenario initial_system) as [sys'|] eqn:Hrun.
    + refine (proj1 (proj2 (Hruns scenario sys' Hrun)) _).
      unfold scenario.
      repeat apply Forall_cons_2; try apply Forall_nil_2; simpl; try exact I.
      unfold tm_in_range. simpl. lia.
    + vm_compute in Hrun. discriminate Hrun.
Defined.

(** A message that arrives after the interrupt is still relayed and stored;
    the handler leaves at the head of its loop afterwards. *)
Example relayed_after_signal :
  (λ sys, (history_of (room_history (server sys)) "general",
           offered_to 5 (trace (server sys)), dom (handlers sys)))
    <$> run never_fails [Signal; Recv 4 (RecvBytes ("hi" +:+ CStr.newline)) (mk_tm 10 0 0)]
          (mk_system two_clients {[ 4 := ("A", "general"); 5 := ("B", "general") ]})
  = Some (["[10:00:00] A: hi"], ["[10:00:00] A: hi"; CStr.newline], {[ 5 ]}).
Proof. vm_compute. reflexivity. Qed.

(** After the scenario the history holds A's message and nothing else: none
    of the three join announcements was stored. *)
Example scenario_history :
  (λ sys, history_of (room_history (server sys)) "general")
    <$> run never_fails scenario initial_system
  = Some ["[10:00:00] A: hi"].
Proof. vm_compute. reflexivity. Qed.

(** What client C on socket 6 is sent when it joins last: the prompt, the
    confirmation, and the one stored message. *)
Example scenario_replay :
  (λ sys, offered_to 6 (trace (server sys)))
    <$> run never_fails scenario initial_system
  = Some ["Enter your name: "; confirmation; "[10:00:00] A: hi"; CStr.newline].
Proof. vm_compute. reflexivity. Qed.

(** What A on socket 4 is sent: B's and C's announcements, and no echo of
    its own message. *)
Example scenario_first_client :
  (λ sys, lines_offered_to 4 (trace (server sys)))
    <$> run never_fails scenario initial_system
  = Some ["Enter your name: "; confirmation; "B joined the chat";
          "C joined the chat"].
Proof. vm_compute. reflexivity. Qed.

(** ** The lock discipline *)

Lemma scan_targets_snoc (cs : list ClientInfo) (c : ClientInfo) (r : string)
    (sender : Z) :
  scan_targets (cs ++ [c]) r sender []
  = if decide (room c = r ∧ socket c ≠ sender)
    then scan_targets cs r sender [] ++ [socket c]
    else scan_targets cs r sender [].
Proof.
  rewrite !scan_targets_filter, filter_app, fmap_app. simpl.
  rewrite filter_cons, filter_nil.
  case_decide; simpl; [done | by rewrite app_nil_r].
Qed.

(** Case analysis on which thread a program point belongs to after a step. *)
Ltac thread_cases :=
  unfold Lock.at_pc in *; simpl in *;
  repeat match goal with
         | H : <[_ := _]> _ !! _ = Some _ |- _ =>
             rewrite lookup_insert in H; case_decide; simplify_eq
         end.

(** Two threads inside [lock_guard] scopes, or one inside while the mutex
    is free, contradict the invariant. *)
Ltac mutex_clash Hholder :=
  exfalso;
  repeat match goal with
         | H : Lock.threads _ !! ?t = Some ?pc |- _ =>
             let Hh := fresh in
             assert (Lock.holding pc) as Hh by (first [exact I | assumption]);
             lazymatch goal with
             | _ : Lock.clientsMutex _ = Some t |- _ => fail
             | _ => pose proof (Hholder t pc H Hh); clear Hh
             end
         end;
  congruence.

(** The owner of the mutex after a step. *)
Ltac owner_cases Howner Hown :=
  match goal with
  | |- ∃ _, <[?t := _]> _ !! ?t' = _ ∧ _ =>
      destruct (decide (t = t')) as [<-|?];
      [ first [ by (eexists; split; [apply lookup_insert_eq | exact I])
              | exfalso; destruct (Howner _ Hown) as (? & ? & ?);
                simplify_eq; done ]
      | rewrite lookup_insert_ne by done;
        first [ by apply Howner | simplify_eq ] ]
  end.

Section LockInvariant.

Variable stalled : Z → Prop.

Lemma invariant_start (ths : gmap nat Lock.Pc) :
  (∀ t pc, ths !! t = Some pc → pc = Lock.Idle) →
  Lock.invariant (Lock.mk_config [] None ths []).
Proof.
  intros Hidle. constructor; unfold Lock.at_pc; simpl.
  - intros t pc Hpc Hhold. by rewrite (Hidle t pc Hpc) in Hhold.
  - done.
  - intros t msg sender r i targets Hpc. by apply Hidle in Hpc.
Qed.

Lemma invariant_step (cfg cfg' : Lock.Config) (t : nat) :
  Lock.invariant cfg → Lock.step stalled cfg t cfg' → Lock.invariant cfg'.
Proof.
  intros [Hholder Howner Hscan] Hstep.
  inversion Hstep; subst;
    (constructor;
     [ intros t' pc' Hpc' Hhold; thread_cases
     | intros t' Hown; unfold Lock.at_pc in *; simpl in *
     | intros t' msg' sender' r' i' targets' Hpc'; thread_cases ]).
  all: try done.
  all: try (by eapply Hholder).
  all: try (by eapply Hscan).
  all: try (by destruct pc').
  all: try mutex_clash Hholder.
  all: try (owner_cases Howner Hown).
  match goal with
  | Hpc : Lock.threads cfg !! _ = Some (Lock.BroadcastScan _ _ _ ?i _),
    Hc : Lock.registry cfg !! ?i = Some _ |- _ =>
      rewrite (Hscan _ _ _ _ _ _ Hpc), (take_S_r _ _ _ Hc)
  end.
  by rewrite scan_targets_snoc.
Qed.

Lemma reachable_invariant (cfg : Lock.Config) :
  Lock.reachable stalled cfg → Lock.invariant cfg.
Proof.
  induction 1 as [ths Hidle|cfg t cfg' _ IH Hstep].
  - by apply invariant_start.
  - by apply (invariant_step cfg cfg' t).
Qed.

(** A thread in front of a [send] is not inside a [lock_guard] scope. *)
Lemma sending_not_owner (cfg : Lock.Config) (t : nat) (pc : Lock.Pc) :
  Lock.invariant cfg → Lock.at_pc cfg t pc → Lock.sending pc →
  Lock.clientsMutex cfg ≠ Some t.
Proof.
  intros [_ Howner _] Hpc Hsend Hown.
  destruct (Howner t Hown) as (pc0 & Hpc0 & Hhold).
  unfold Lock.at_pc in *. simplify_eq. by destruct pc.
Qed.

(** The step that writes to a socket is taken by a thread that neither
    owns the mutex before nor after it. *)
Lemma send_step_unlocked (cfg cfg' : Lock.Config) (t : nat) (sock : Z)
    (bytes : string) (ret : Z) :
  Lock.invariant cfg → Lock.step stalled cfg t cfg' →
  Lock.wire cfg' = Lock.wire cfg ++ [EvSend sock bytes ret] →
  Lock.clientsMutex cfg ≠ Some t ∧ Lock.clientsMutex cfg' ≠ Some t.
Proof.
  intros Hinv Hstep Hwire.
  assert (∀ l (e : IOEvent), l ≠ l ++ [e]) as Hgrow.
  { intros l e Heq. apply (f_equal length) in Heq.
    rewrite length_app in Heq. simpl in Heq. lia. }
  inversion Hstep; subst; simpl in *;
    try (by apply Hgrow in Hwire);
    try (apply app_inj_tail in Hwire as [_ ?]; simplify_eq);
    split; by eapply sending_not_owner.
Qed.

(** The end of the scan: the list handed to the delivery loop is the
    snapshot of the registry taken under the mutex, the mutex is free again,
    and nothing was written meanwhile. *)
Lemma scan_then_deliver (cfg cfg' : Lock.Config) (t : nat) (msg msg' : string)
    (sender : Z) (r : string) (i : nat) (targets targets' : list Z) :
  Lock.invariant cfg → Lock.step stalled cfg t cfg' →
  Lock.at_pc cfg t (Lock.BroadcastScan msg sender r i targets) →
  Lock.at_pc cfg' t (Lock.BroadcastSend msg' targets') →
  msg' = msg
  ∧ targets' = broadcast_targets (Lock.registry cfg) r sender
  ∧ Lock.clientsMutex cfg = Some t
  ∧ Lock.clientsMutex cfg' = None
  ∧ Lock.registry cfg' = Lock.registry cfg
  ∧ Lock.wire cfg' = Lock.wire cfg.
Proof.
  intros [Hholder _ Hscan] Hstep Hpc Hpc'.
  pose proof (Hholder t _ Hpc I) as Hown.
  pose proof (Hscan _ _ _ _ _ _ Hpc) as Htargets.
  inversion Hstep; subst; unfold Lock.at_pc in *; simpl in *;
    rewrite ?lookup_insert_eq in Hpc'; simplify_eq.
  match goal with
  | Hend : Lock.registry cfg !! _ = None |- _ =>
      apply lookup_ge_None in Hend; rewrite take_ge by done
  end.
  done.
Qed.

End LockInvariant.

(** *** No waiting for peers *)

Lemma steps_trans (stalled : Z → Prop) (cfg1 cfg2 cfg3 : Lock.Config) :
  Lock.steps stalled cfg1 cfg2 → Lock.steps stalled cfg2 cfg3 →
  Lock.steps stalled cfg1 cfg3.
Proof.
  induction 1 as [|cfg t cfg1 cfg2 Hstep _ IH]; [done|].
  intros Hrest. eapply Lock.steps_cons; [exact Hstep | by apply IH].
Qed.

Lemma steps_one (stalled : Z → Prop) (cfg cfg' : Lock.Config) (t : nat) :
  Lock.step stalled cfg t cfg' → Lock.steps stalled cfg cfg'.
Proof. intros Hstep. eapply Lock.steps_cons; [exact Hstep | constructor]. Qed.

(** The scan reaches its end without any peer draining its socket. *)
Lemma scan_finishes (n : nat) (cfg : Lock.Config) (t0 : nat) (msg : string)
    (sender : Z) (r : string) (i : nat) (targets : list Z) :
  (length (Lock.registry cfg) - i ≤ n)%nat →
  Lock.at_pc cfg t0 (Lock.BroadcastScan msg sender r i targets) →
  ∃ cfg', Lock.steps Lock.all_stalled cfg cfg' ∧ Lock.released_by t0 cfg cfg'.
Proof.
  revert cfg i targets.
  induction n as [|n IH]; intros cfg i targets Hleft Hpc;
    destruct (Lock.registry cfg !! i) as [c|] eqn:Hc.
  - apply lookup_lt_Some in Hc. lia.
  - eexists. split; [eapply steps_one, Lock.step_broadcast_unlock; eauto|].
    split; [done|]. intros t Hne. simpl. by rewrite lookup_insert_ne.
  - pose proof (Lock.step_broadcast_scan Lock.all_stalled cfg t0 _ _ _ _ _ _ Hpc Hc)
      as Hstep.
    set (targets1 := if decide (room c = r ∧ socket c ≠ sender)
                     then targets ++ [socket c] else targets) in *.
    destruct (IH (Lock.goto t0 (Lock.BroadcastScan msg sender r (S i) targets1) cfg)
                (S i) targets1)
      as (cfg' & Hsteps & Hfree & Hsame).
    + apply lookup_lt_Some in Hc. simpl. lia.
    + unfold Lock.at_pc. simpl. apply lookup_insert_eq.
    + exists cfg'. split; [eapply Lock.steps_cons; eauto|].
      split; [done|]. intros t Hne. rewrite (Hsame t Hne). simpl.
      by rewrite lookup_insert_ne.
  - eexists. split; [eapply steps_one, Lock.step_broadcast_unlock; eauto|].
    split; [done|]. intros t Hne. simpl. by rewrite lookup_insert_ne.
Qed.

(** So does the closing loop of [stop]. *)
Lemma stop_finishes (n : nat) (cfg : Lock.Config) (t0 : nat) (i : nat) :
  (length (Lock.registry cfg) - i ≤ n)%nat →
  Lock.at_pc cfg t0 (Lock.StopClose i) →
  ∃ cfg', Lock.steps Lock.all_stalled cfg cfg' ∧ Lock.released_by t0 cfg cfg'.
Proof.
  revert cfg i.
  induction n as [|n IH]; intros cfg i Hleft Hpc;
    destruct (Lock.registry cfg !! i) as [c|] eqn:Hc.
  - apply lookup_lt_Some in Hc. lia.
  - eexists. split; [eapply steps_one, Lock.step_stop_clear; eauto|].
    split; [done|]. intros t Hne. simpl. by rewrite lookup_insert_ne.
  - pose proof (Lock.step_stop_close Lock.all_stalled cfg t0 _ _ Hpc Hc) as Hstep.
    destruct (IH (Lock.emit t0 (Lock.StopClose (S i)) (EvClose (socket c)) cfg)
                (S i))
      as (cfg' & Hsteps & Hfree & Hsame).
    + apply lookup_lt_Some in Hc. simpl. lia.
    + unfold Lock.at_pc. simpl. apply lookup_insert_eq.
    + exists cfg'. split; [eapply Lock.steps_cons; eauto|].
      split; [done|]. intros t Hne. rewrite (Hsame t Hne). simpl.
      by rewrite lookup_insert_ne.
  - eexists. split; [eapply steps_one, Lock.step_stop_clear; eauto|].
    split; [done|]. intros t Hne. simpl. by rewrite lookup_insert_ne.
Qed.

(** Whoever owns the mutex gives it back without any [send] returning. *)
Lemma owner_releases (cfg : Lock.Config) (t0 : nat) :
  Lock.invariant cfg → Lock.clientsMutex cfg = Some t0 →
  ∃ cfg', Lock.steps Lock.all_stalled cfg cfg' ∧ Lock.released_by t0 cfg cfg'.
Proof.
  intros [_ Howner _] Hown.
  destruct (Howner t0 Hown) as (pc & Hpc & Hhold).
  destruct pc; try done.
  - eexists. split; [eapply steps_one, Lock.step_register_push; eauto|].
    split; [done|]. intros t Hne. simpl. by rewrite lookup_insert_ne.
  - by eapply scan_finishes.
  - eexists. split; [eapply steps_one, Lock.step_remove_erase; eauto|].
    split; [done|]. intros t Hne. simpl. by rewrite lookup_insert_ne.
  - by eapply stop_finishes.
Qed.

(** A thread in front of a [lock_guard] gets the mutex once it is free. *)
Lemma waiting_acquires (cfg : Lock.Config) (t : nat) (pc : Lock.Pc) :
  Lock.at_pc cfg t pc → Lock.waiting pc → Lock.clientsMutex cfg = None →
  ∃ cfg', Lock.step Lock.all_stalled cfg t cfg' ∧ Lock.clientsMutex cfg' = Some t.
Proof.
  intros Hpc Hwait Hfree. destruct pc; try done; eexists.
  - split; [by apply Lock.step_register_lock|done].
  - split; [by apply Lock.step_broadcast_lock|done].
  - split; [by apply Lock.step_remove_lock|done].
  - split; [by apply Lock.step_stop_lock|done].
Qed.

(** A write to a stalled peer keeps the thread that makes it where it is: the
    later targets of the same broadcast wait behind it. *)
Lemma stalled_target_holds_thread (stalled : Z → Prop) (cfg : Lock.Config)
    (t : nat) (msg : string) (sock : Z) (rest : list Z) :
  Lock.at_pc cfg t (Lock.BroadcastSend msg (sock :: rest)) → stalled sock →
  ∀ cfg', ¬ Lock.step stalled cfg t cfg'.
Proof.
  intros Hpc Hstalled cfg' Hstep.
  inversion Hstep; subst; unfold Lock.at_pc in *; simplify_eq; done.
Qed.

(** Peel the last step off a configuration written as a chain of steps. *)
Ltac last_step :=
  lazymatch goal with
  | |- Lock.reachable _ (Lock.goto ?t _ ?c) => apply (Lock.reachable_step _ c t)
  | |- Lock.reachable _ (Lock.acquire ?t _ ?c) => apply (Lock.reachable_step _ c t)
  | |- Lock.reachable _ (Lock.release ?t _ _ ?c) => apply (Lock.reachable_step _ c t)
  | |- Lock.reachable _ (Lock.emit ?t _ _ ?c) => apply (Lock.reachable_step _ c t)
  end.

(** Name the configuration a step starts from. *)
Ltac from_config k :=
  lazymatch goal with |- Lock.step _ ?c _ _ => k c end.

Lemma contended_reachable : Lock.reachable (Lock.only_stalled 4) Lock.contended.
Proof.
  unfold Lock.contended, Lock.delivering, Lock.registered.
  last_step; [|by apply Lock.step_call].
  last_step;
    [|from_config ltac:(fun c =>
        by apply (Lock.step_broadcast_unlock _ c 1%nat "hi" 5 "general" 1%nat [4]))].
  last_step;
    [|from_config ltac:(fun c =>
        by apply (Lock.step_broadcast_scan _ c 1%nat "hi" 5 "general" 0%nat []
                    Lock.c4))].
  last_step; [|by apply Lock.step_broadcast_lock].
  last_step; [|by apply Lock.step_call].
  last_step;
    [|from_config ltac:(fun c =>
        by apply (Lock.step_register_push _ c 0%nat Lock.c4))].
  last_step; [|by apply Lock.step_register_lock].
  last_step; [|by apply Lock.step_call].
  apply Lock.reachable_start. intros t pc Hpc.
  apply lookup_insert_Some in Hpc as [[_ <-]|[_ Hpc]]; [done|].
  by apply lookup_singleton_Some in Hpc as [_ <-].
Qed.

Lemma step_other_thread (stalled : Z → Prop) (cfg cfg' : Lock.Config)
    (t t0 : nat) :
  Lock.step stalled cfg t cfg' → t0 ≠ t →
  Lock.threads cfg' !! t0 = Lock.threads cfg !! t0.
Proof.
  intros Hstep Hne. inversion Hstep; subst; simpl; by rewrite lookup_insert_ne.
Qed.

(** However the other threads go on, the thread stays in front of that
    write. *)
Lemma stalled_write_stays (stalled : Z → Prop) (cfg cfg' : Lock.Config)
    (t : nat) (msg : string) (sock : Z) (rest : list Z) :
  Lock.at_pc cfg t (Lock.BroadcastSend msg (sock :: rest)) → stalled sock →
  Lock.steps stalled cfg cfg' →
  Lock.at_pc cfg' t (Lock.BroadcastSend msg (sock :: rest)).
Proof.
  intros Hpc Hstalled Hsteps.
  induction Hsteps as [|cfg t1 cfg1 cfg2 Hstep _ IH]; [done|].
  apply IH. destruct (decide (t = t1)) as [->|Hne].
  - by destruct (stalled_target_holds_thread stalled cfg t1 msg sock rest
                   Hpc Hstalled cfg1).
  - unfold Lock.at_pc. by rewrite (step_other_thread stalled cfg cfg1 t1 t).
Qed.

Lemma blocked_reachable : Lock.reachable (Lock.only_stalled 4) Lock.blocked.
Proof.
  unfold Lock.blocked, Lock.three_registered, Lock.register.
  last_step;
    [|from_config ltac:(fun c =>
        by apply (Lock.step_broadcast_unlock _ c 2%nat "hi" 6 "general" 3%nat
                    [4; 5]))].
  last_step;
    [|from_config ltac:(fun c =>
        by apply (Lock.step_broadcast_scan _ c 2%nat "hi" 6 "general" 2%nat
                    [4; 5] Lock.c6))].
  last_step;
    [|from_config ltac:(fun c =>
        by apply (Lock.step_broadcast_scan _ c 2%nat "hi" 6 "general" 1%nat
                    [4] Lock.c5))].
  last_step;
    [|from_config ltac:(fun c =>
        by apply (Lock.step_broadcast_scan _ c 2%nat "hi" 6 "general" 0%nat
                    [] Lock.c4))].
  last_step; [|by apply Lock.step_broadcast_lock].
  last_step; [|by apply Lock.step_call].
  last_step;
    [|from_config ltac:(fun c =>
        by apply (Lock.step_register_push _ c 2%nat Lock.c6))].
  last_step; [|by apply Lock.step_register_lock].
  last_step; [|by apply Lock.step_call].
  last_step;
    [|from_config ltac:(fun c =>
        by apply (Lock.step_register_push _ c 1%nat Lock.c5))].
  last_step; [|by apply Lock.step_register_lock].
  last_step; [|by apply Lock.step_call].
  last_step;
    [|from_config ltac:(fun c =>
        by apply (Lock.step_register_push _ c 0%nat Lock.c4))].
  last_step; [|by apply Lock.step_register_lock].
  last_step; [|by apply Lock.step_call].
  apply Lock.reachable_start. intros t pc Hpc.
  apply lookup_insert_Some in Hpc as [[_ <-]|[_ Hpc]]; [done|].
  apply lookup_insert_Some in Hpc as [[_ <-]|[_ Hpc]]; [done|].
  by apply lookup_singleton_Some in Hpc as [_ <-].
Qed.

(** The claim that a stalled peer cannot block delivery to other sessions
    does not hold of the code.  A, B and C are registered on sockets 4, 5 and
    6 and only A's peer is stalled.  C's handler broadcasts [hi]; its target
    list is [4; 5], nothing is written yet, and the handler is in front of
    the write to socket 4.  Whatever the threads do from there, C's handler
    is still in front of that write and takes no step: its message does not
    reach B, whose peer is not stalled, and C's handler reads nothing more
    from its own peer. *)
Lemma stalled_peer_blocks_delivery :
  Lock.reachable (Lock.only_stalled 4) Lock.blocked
  ∧ Lock.registry Lock.blocked = [Lock.c4; Lock.c5; Lock.c6]
  ∧ Lock.at_pc Lock.blocked 2 (Lock.BroadcastSend "hi" [4; 5])
  ∧ Lock.wire Lock.blocked = []
  ∧ ¬ Lock.only_stalled 4 5
  ∧ ∀ cfg',
      Lock.steps (Lock.only_stalled 4) Lock.blocked cfg' →
      Lock.at_pc cfg' 2 (Lock.BroadcastSend "hi" [4; 5])
      ∧ ∀ cfg'', ¬ Lock.step (Lock.only_stalled 4) cfg' 2 cfg''.
Proof.
  split_and!; [apply blocked_reachable | reflexivity.. | by unfold Lock.only_stalled |].
  intros cfg' Hsteps.
  assert (Lock.at_pc cfg' 2 (Lock.BroadcastSend "hi" [4; 5])) as Hpc.
  { by apply (stalled_write_stays (Lock.only_stalled 4) Lock.blocked). }
  split; [done|].
  by apply (stalled_target_holds_thread _ _ _ "hi" 4 [5]).
Qed.

(** C9 (as the code has it). In every configuration the threads can get
    into: a thread in front of a [send] does not own [clientsMutex], and no
    step that writes to a socket is taken by the owner; a thread scanning the
    registry owns the mutex and has collected the targets of the part scanned
    so far; the step that ends the scan frees the mutex and hands the
    delivery loop the snapshot of the whole registry before anything is
    written; a thread that waits for the mutex obtains it even when no peer
    at all drains its socket; a write to a peer that is not stalled can be
    done whatever the other threads are waiting for; and a thread in front of
    a write to a stalled peer takes no step, so the targets after that peer
    in its list wait. *)
Theorem snapshot_then_deliver (stalled : Z → Prop) (cfg : Lock.Config) :
  Lock.reachable stalled cfg →
  (∀ t pc, Lock.at_pc cfg t pc → Lock.sending pc → Lock.clientsMutex cfg ≠ Some t)
  ∧ (∀ t cfg' sock bytes ret,
       Lock.step stalled cfg t cfg' →
       Lock.wire cfg' = Lock.wire cfg ++ [EvSend sock bytes ret] →
       Lock.clientsMutex cfg ≠ Some t ∧ Lock.clientsMutex cfg' ≠ Some t)
  ∧ (∀ t msg sender r i targets,
       Lock.at_pc cfg t (Lock.BroadcastScan msg sender r i targets) →
       Lock.clientsMutex cfg = Some t
       ∧ targets = scan_targets (take i (Lock.registry cfg)) r sender [])
  ∧ (∀ t cfg' msg msg' sender r i targets targets',
       Lock.step stalled cfg t cfg' →
       Lock.at_pc cfg t (Lock.BroadcastScan msg sender r i targets) →
       Lock.at_pc cfg' t (Lock.BroadcastSend msg' targets') →
       msg' = msg
       ∧ targets' = broadcast_targets (Lock.registry cfg) r sender
       ∧ Lock.clientsMutex cfg = Some t
       ∧ Lock.clientsMutex cfg' = None
       ∧ Lock.registry cfg' = Lock.registry cfg
       ∧ Lock.wire cfg' = Lock.wire cfg)
  ∧ (∀ t pc,
       Lock.at_pc cfg t pc → Lock.waiting pc →
       ∃ cfg', Lock.steps Lock.all_stalled cfg cfg'
               ∧ Lock.clientsMutex cfg' = Some t)
  ∧ (∀ t msg sock rest,
       Lock.at_pc cfg t (Lock.BroadcastSend msg (sock :: rest)) →
       ¬ stalled sock →
       ∃ cfg', Lock.step stalled cfg t cfg'
               ∧ Lock.wire cfg'
                 = Lock.wire cfg ++ [EvSend sock msg (Z.of_nat (CStr.size msg))])
  ∧ (∀ t msg sock rest,
       Lock.at_pc cfg t (Lock.BroadcastSend msg (sock :: rest)) →
       stalled sock →
       ∀ cfg', ¬ Lock.step stalled cfg t cfg').
Proof.
  intros Hreach. pose proof (reachable_invariant stalled cfg Hreach) as Hinv.
  split_and!.
  - intros t pc. by apply sending_not_owner.
  - intros t cfg' sock bytes ret. by apply send_step_unlocked.
  - intros t msg sender r i targets Hpc. destruct Hinv as [Hholder _ Hscan].
    split; [by apply (Hholder t _ Hpc) | by apply (Hscan t msg)].
  - intros t cfg' msg msg' sender r i targets targets'.
    by apply scan_then_deliver.
  - intros t pc Hpc Hwait.
    destruct (Lock.clientsMutex cfg) as [t0|] eqn:Hown.
    + destruct (owner_releases cfg t0 Hinv Hown) as (cfg1 & Hsteps & Hfree & Hsame).
      assert (t ≠ t0) as Hne.
      { intros ->. destruct Hinv as [_ Howner _].
        destruct (Howner t0 Hown) as (pc0 & Hpc0 & Hhold).
        unfold Lock.at_pc in *. simplify_eq. by destruct pc. }
      destruct (waiting_acquires cfg1 t pc) as (cfg2 & Hstep & Hmine);
        [by unfold Lock.at_pc; rewrite (Hsame t Hne) | done | done |].
      exists cfg2. split; [|done].
      eapply steps_trans; [exact Hsteps | by eapply steps_one].
    + destruct (waiting_acquires cfg t pc Hpc Hwait Hown) as (cfg2 & Hstep & Hmine).
      exists cfg2. split; [by eapply steps_one | done].
  - intros t msg sock rest Hpc Hok. eexists.
    split; [by apply Lock.step_broadcast_sent | done].
  - intros t msg sock rest. apply stalled_target_holds_thread.
Qed.

(** Thread 1 is in front of a write to the stalled peer on socket 4; thread 0
    still gets the mutex for its [removeClient]. *)
Lemma snapshot_then_deliver_witness :
  Lock.clientsMutex Lock.contended ≠ Some 1%nat
  ∧ ∃ cfg', Lock.steps Lock.all_stalled Lock.contended cfg'
            ∧ Lock.clientsMutex cfg' = Some 0%nat.
Proof.
  pose proof (snapshot_then_deliver (Lock.only_stalled 4) Lock.contended
                contended_reachable) as (Hsend & _ & _ & _ & Hwait & _).
  split.
  - apply (Hsend 1%nat (Lock.BroadcastSend "hi" [4])); [reflexivity | exact I].
  - apply (Hwait 0%nat (Lock.RemoveLock 4)); [reflexivity | exact I].
Defined.

Example contended_thread_1_waits_for_peer :
  ∀ cfg', ¬ Lock.step (Lock.only_stalled 4) Lock.contended 1 cfg'.
Proof.
  apply (stalled_target_holds_thread _ _ _ "hi" 4 []); reflexivity.
Qed.

(** * Further properties of the code *)

(** ** [main] and the listening endpoint *)


(** X1. Whatever the command line and whatever [atoi] reads, the port
    [main] passes on lies in 1..65535.  It differs from 8080 only when the
    first argument is [-p] or [--port], a value follows, and that value is
    the port; a value in range is taken as it is and without a warning; the
    warning is printed exactly for a value out of range. *)
Theorem select_port_range (atoi : string → Z) (argv : list string) :
  1 <= fst (Process.select_port atoi argv) <= 65535
  ∧ (fst (Process.select_port atoi argv) ≠ 8080 →
     (2 < length argv)%nat
     ∧ (Process.arg argv 1 = "-p" ∨ Process.arg argv 1 = "--port")
     ∧ fst (Process.select_port atoi argv) = atoi (Process.arg argv 2))
  ∧ ((2 < length argv)%nat →
     Process.arg argv 1 = "-p" ∨ Process.arg argv 1 = "--port" →
     1 <= atoi (Process.arg argv 2) <= 65535 →
     Process.select_port atoi argv = (atoi (Process.arg argv 2), []))
  ∧ (snd (Process.select_port atoi argv) ≠ [] ↔
     (2 < length argv)%nat
     ∧ (Process.arg argv 1 = "-p" ∨ Process.arg argv 1 = "--port")
     ∧ ¬ 1 <= atoi (Process.arg argv 2) <= 65535).
Proof.
  unfold Process.select_port.
  destruct (decide (2 < length argv)%nat) as [Hargc|Hargc];
    [destruct (decide (Process.arg argv 1 = "-p" ∨ Process.arg argv 1 = "--port"))
       as [Hflag|Hflag];
     [destruct (decide (atoi (Process.arg argv 2) <= 0
                        ∨ 65535 < atoi (Process.arg argv 2))) as [Hbad|Hok]|]|];
    simpl; split_and!; try done; try lia; try tauto.
  - split; [intros _; split_and!; [done..|lia] | done].
  - split; [done | intros (_ & _ & Hbad); lia].
Qed.

Lemma select_port_range_witness :
  Process.select_port Process.atoi ["./opticom"; "-p"; "9000"] = (9000, [])
  ∧ fst (Process.select_port Process.atoi ["./opticom"; "--port"; "70000"]) = 8080.
Proof.
  split.
  - apply (select_port_range Process.atoi ["./opticom"; "-p"; "9000"]).
    + simpl. lia.
    + left. reflexivity.
    + vm_compute. split; discriminate.
  - destruct (decide (fst (Process.select_port Process.atoi
                             ["./opticom"; "--port"; "70000"]) = 8080))
      as [Heq|Hne]; [exact Heq|].
    exfalso.
    pose proof (select_port_range Process.atoi ["./opticom"; "--port"; "70000"])
      as (Hrange & Hother & _).
    destruct (Hother Hne) as (_ & _ & Hport).
    rewrite Hport in Hrange. vm_compute in Hrange. destruct Hrange as [_ Hle].
    by apply Hle.
Defined.

Lemma listening_closes_log_call (fd : Z) (c : Process.Syscall) (s : Process.Server) :
  Process.listening_closes fd (Process.log_call c s)
  = (Process.listening_closes fd s
     + if decide (c = Process.SysClose fd) then 1 else 0)%nat.
Proof.
  unfold Process.listening_closes, Process.log_call. cbn [Process.calls].
  rewrite filter_app, length_app, filter_cons, filter_nil.
  by case_decide.
Qed.

(** The accept loop leaves the members and the listening descriptor alone
    as long as no interrupt comes. *)
Lemma await_connections (pre rest : list Process.AcceptEvent) (s : Process.Server) :
  Process.serving s = true →
  Forall Process.is_connection pre →
  ∃ s1,
    Process.members s1 = Process.members s
    ∧ Process.serverSocket s1 = Process.serverSocket s
    ∧ (∀ fd, Process.listening_closes fd s1 = Process.listening_closes fd s)
    ∧ Process.await (pre ++ rest) s
      = (let '(spawned, e, s3) := Process.await rest s1 in
         (Process.accepted_of pre ++ spawned, e, s3)).
Proof.
  intros Hserving Hpre. revert s Hserving.
  induction Hpre as [|[ret ip|] pre Hc _ IH]; intros s Hserving; [| |done].
  - exists s. split_and!; try done. simpl. by destruct (Process.await rest s) as [[? ?] ?].
  - simpl. unfold Process.accepted_of. simpl.
    destruct (decide (ret < 0)) as [Hfail|Hok].
    + set (s1 := Process.log_call _ s).
      assert (Process.serving s1 = true) as Hs1 by done.
      rewrite Hs1. destruct (IH s1 Hs1) as (s2 & Hm & Hfd & Hcl & Heq).
      exists s2. split_and!; try done.
      intros fd. rewrite Hcl. unfold s1.
      rewrite listening_closes_log_call, decide_False by discriminate. lia.
    + set (s2 := Process.say _ _).
      assert (Process.serving s2 = true) as Hs2 by done.
      rewrite Hs2. destruct (IH s2 Hs2) as (s3 & Hm & Hfd & Hcl & Heq).
      exists s3. split_and!; try done.
      * intros fd. rewrite Hcl. unfold s2.
        change (Process.listening_closes fd (Process.say ?l ?s0))
          with (Process.listening_closes fd s0).
        rewrite listening_closes_log_call, decide_False by discriminate. lia.
      * rewrite Heq. fold (Process.accepted_of pre).
        by destruct (Process.await rest s3) as [[? ?] ?].
Qed.

Lemma await_interrupts (n : nat) (rest : list Process.AcceptEvent) (s : Process.Server) :
  Process.await (replicate (S n) Process.Interrupt ++ rest) s
  = Process.await rest
      (Process.with_members (set_serverRunning false) s).
Proof.
  revert s. induction n as [|n IH]; intros s; [done|].
  change (replicate (S (S n)) Process.Interrupt ++ rest)
    with (Process.Interrupt :: (replicate (S n) Process.Interrupt ++ rest)).
  cbn [Process.await]. by rewrite IH.
Qed.

Lemma serving_after_interrupt (s : Process.Server) :
  Process.serving (Process.with_members (set_serverRunning false) s) = false.
Proof. unfold Process.serving. simpl. apply andb_false_r. Qed.

(** X2. While the server is serving: a failing [accept] never ends the
    loop, and without an interrupt the loop stays in [accept] having handed
    exactly the successful connections, in order, to handler threads.  An
    interrupt alone does not end it either: the loop stays blocked, the next
    result of [accept] is still handled (a connection is still given its
    thread), and only then does the loop end, whatever would follow.  When
    the server is not serving, nothing is accepted. *)
Theorem accept_loop (script pre rest : list Process.AcceptEvent) (n : nat)
    (ret : Z) (ip : string) (s : Process.Server) :
  (Process.serving s = false → Process.acceptClients script s = ([], Exited, s))
  ∧ (Process.serving s = true → Forall Process.is_connection pre →
     fst (Process.acceptClients pre s) = (Process.accepted_of pre, Parked)
     ∧ fst (Process.acceptClients (pre ++ replicate (S n) Process.Interrupt) s)
       = (Process.accepted_of pre, Parked)
     ∧ fst (Process.acceptClients
              (pre ++ replicate (S n) Process.Interrupt
                   ++ Process.Connection ret ip :: rest) s)
       = (Process.accepted_of (pre ++ [Process.Connection ret ip]), Exited)).
Proof.
  split.
  - intros Hoff. unfold Process.acceptClients. by rewrite Hoff.
  - intros Hon Hpre. unfold Process.acceptClients. rewrite Hon. split_and!.
    + destruct (await_connections pre [] s Hon Hpre) as (s1 & _ & _ & _ & Heq).
      rewrite app_nil_r in Heq. rewrite Heq. simpl. by rewrite app_nil_r.
    + destruct (await_connections pre (replicate (S n) Process.Interrupt) s Hon Hpre)
        as (s1 & _ & _ & _ & Heq).
      rewrite Heq.
      rewrite <- (app_nil_r (replicate (S n) Process.Interrupt)), await_interrupts.
      simpl. by rewrite app_nil_r.
    + destruct (await_connections pre
                  (replicate (S n) Process.Interrupt
                     ++ Process.Connection ret ip :: rest) s Hon Hpre)
        as (s1 & _ & _ & _ & Heq).
      rewrite Heq, await_interrupts. cbn [Process.await].
      change (Process.serving (Process.say ?l (Process.log_call ?c ?x)))
        with (Process.serving x).
      change (Process.serving (Process.log_call ?c ?x))
        with (Process.serving x).
      rewrite serving_after_interrupt.
      unfold Process.accepted_of. rewrite omap_app. simpl.
      destruct (decide (ret < 0)); simpl; [by rewrite app_nil_r | done].
Qed.

Lemma accept_loop_witness :
  fst (Process.acceptClients
         ([Process.Connection (-1) ""; Process.Connection 4 "10.0.0.1"]
            ++ replicate 1 Process.Interrupt
            ++ Process.Connection 5 "10.0.0.2" :: [Process.Connection 6 "10.0.0.3"])
         (Process.with_members (set_running true) (Process.constructed [])))
  = ([(4, "10.0.0.1"); (5, "10.0.0.2")], Exited).
Proof.
  refine (proj2 (proj2 (proj2
    (accept_loop [] [Process.Connection (-1) ""; Process.Connection 4 "10.0.0.1"]
       [Process.Connection 6 "10.0.0.3"] 0 5 "10.0.0.2"
       (Process.with_members (set_running true) (Process.constructed []))) _ _))).
  - reflexivity.
  - repeat constructor.
Defined.


(** The loop is left only when the server is not serving any more. *)
Lemma await_exited (script : list Process.AcceptEvent) (s : Process.Server) :
  snd (fst (Process.await script s)) = Exited →
  Process.serving (snd (Process.await script s)) = false.
Proof.
  revert s. induction script as [|[ret ip|] rest IH]; intros s; [done| |].
  - simpl. destruct (decide (ret < 0)).
    + set (s1 := Process.log_call _ s).
      destruct (Process.serving s1) eqn:Hs1; [apply IH | done].
    + set (s2 := Process.say _ _).
      destruct (Process.serving s2) eqn:Hs2; [|done].
      specialize (IH s2). destruct (Process.await rest s2) as [[sp e] s3].
      exact IH.
  - simpl. apply IH.
Qed.




(** A port already in use: [bind] fails, [main] still returns 0, and the
    descriptor 3 is closed twice. *)
Example bind_failure :
  match Process.main Process.atoi (Process.mk_endpoint 3 (-1) 0) []
          ["./opticom"; "-p"; "80"] with
  | Process.Returned code handlers s =>
      code = 0 ∧ handlers = []
      ∧ Process.calls s
        = [Process.SysIgnoreSigpipe; Process.SysSocket 3;
           Process.SysSetReuseAddr 3; Process.SysBind 3 80 (-1);
           Process.SysClose 3; Process.SysClose 3]
  | _ => False
  end.
Proof. vm_compute. done. Qed.


(** ** What a newcomer is sent *)











(** ** A handler from start to end *)










(** ** The display name *)

Lemma until_nul_clean (bytes : list ascii) :
  ¬ CStr.occurs CStr.NUL (CStr.until_nul bytes).
Proof.
  induction bytes as [|c bytes IH]; simpl; [tauto|].
  destruct (decide (c = CStr.NUL)); simpl; [tauto|]. intros [?|?]; auto.
Qed.

Lemma length_until_nul (bytes : list ascii) :
  (String.length (CStr.until_nul bytes) ≤ length bytes)%nat
  ∧ (CStr.NUL ∈ bytes → String.length (CStr.until_nul bytes) < length bytes)%nat.
Proof.
  induction bytes as [|c bytes [IH1 IH2]]; simpl.
  - split; [lia | by intros ?%elem_of_nil].
  - destruct (decide (c = CStr.NUL)) as [->|Hne]; simpl; [lia|].
    split; [lia|]. intros [?|Hin]%elem_of_cons; [congruence|].
    apply IH2 in Hin. lia.
Qed.

Lemma erase_remove_keeps_absent (c a : ascii) (s : string) :
  ¬ CStr.occurs a s → ¬ CStr.occurs a (CStr.erase_remove c s).
Proof.
  induction s as [|b s IH]; simpl; [tauto|].
  intros Hno. destruct (decide (b = c)); simpl; tauto.
Qed.

Lemma length_erase_remove (c : ascii) (s : string) :
  (String.length (CStr.erase_remove c s) ≤ String.length s)%nat.
Proof.
  induction s as [|b s IH]; simpl; [lia|].
  destruct (decide (b = c)); simpl; lia.
Qed.

(** X7. The greeting writes the 17 bytes of the prompt and takes as display
    name what the first read brought up to its first NUL, with every newline
    removed; it touches neither the registry nor the histories.  The name
    therefore holds no newline and no NUL and is shorter than the buffer; it
    is empty when the read failed or brought nothing.  When the read fills
    the buffer with no NUL in it, [string(buffer)] reads past the array. *)
Theorem greeting_name (send_fails : nat → bool) (sock : Z) (rr : RecvResult)
    (st : State) :
  greeting send_fails sock rr st
  = (if decide (terminated rr)
     then Some (CStr.erase_remove CStr.LF (CStr.until_nul (received rr)),
                prompted send_fails sock st)
     else None)
  ∧ (∀ name st',
       greeting send_fails sock rr st = Some (name, st') →
       ¬ CStr.occurs CStr.LF name
       ∧ ¬ CStr.occurs CStr.NUL name
       ∧ (String.length name < BUFFER_SIZE)%nat
       ∧ (recv_ret rr <= 0 → name = "")
       ∧ clients st' = clients st
       ∧ room_history st' = room_history st
       ∧ trace st'
         = trace st ++ [EvSend sock "Enter your name: "
                          (if send_fails (length (trace st)) then -1 else 17)]).
Proof.
  assert (greeting send_fails sock rr st
          = if decide (terminated rr)
            then Some (CStr.erase_remove CStr.LF (CStr.until_nul (received rr)),
                       prompted send_fails sock st)
            else None) as Heq.
  { rewrite greeting_run, string_of_read. by destruct (decide (terminated rr)). }
  split; [exact Heq|]. intros name st'. rewrite Heq.
  destruct (decide (terminated rr)) as [Hterm|]; [|done].
  intros [= <- <-]. split_and!; try done.
  - apply erase_remove_clean.
  - apply erase_remove_keeps_absent, until_nul_clean.
  - pose proof (length_erase_remove CStr.LF (CStr.until_nul (received rr))).
    pose proof (length_until_nul (received rr)) as [Hle Hlt].
    pose proof (length_received rr).
    destruct Hterm as [?|Hnul]; [lia|]. apply Hlt in Hnul. lia.
  - intros Hret. destruct rr as [|data]; [done|].
    unfold recv_ret in Hret.
    destruct (received (RecvBytes data)); [done | simpl in Hret; lia].
Qed.

Lemma greeting_name_witness :
  ∃ st',
    greeting never_fails 4 (RecvBytes ("Al" +:+ CStr.newline +:+ "ice" +:+ CStr.newline))
      initial_state
    = Some ("Alice", st')
    ∧ (String.length "Alice" < BUFFER_SIZE)%nat.
Proof.
  eexists. split; [vm_compute; reflexivity|].
  refine (proj1 (proj2 (proj2
    (proj2 (greeting_name never_fails 4
              (RecvBytes ("Al" +:+ CStr.newline +:+ "ice" +:+ CStr.newline))
              initial_state) "Alice" _ _)))).
  vm_compute. reflexivity.
Defined.

(** ** Runs of the server *)

Section Runs.

Variable send_fails : nat → bool.

(** An invariant of the steps holds after every run. *)
Lemma run_invariant (P : System → Prop) :
  (∀ i sys sys', P sys → step send_fails i sys = Some sys' → P sys') →
  ∀ inputs sys sys', P sys → run send_fails inputs sys = Some sys' → P sys'.
Proof.
  intros Hstep inputs. induction inputs as [|i rest IH]; intros sys sys' HP; simpl.
  - by intros [= <-].
  - destruct (step send_fails i sys) as [sys1|] eqn:H1; [|done].
    apply IH. by eapply Hstep.
Qed.

Lemma one_room_step (i : Input) (sys sys' : System) :
  one_room sys → step send_fails i sys = Some sys' → one_room sys'.
Proof.
  intros (Hcl & Hh & Hhist) Hstep.
  destruct (step_cases send_fails i sys sys' Hstep)
    as [sock ip first raw -> Hraw Hflags ->
       |sock ip first raw -> Hraw Hflags ->
       |sock rr now -> Hnone ->
       |sock rr now name r -> Hsome Hret ->
       |sock rr now name r raw -> Hsome Hret Hraw Hflags ->
       |sock rr now name r raw -> Hsome Hret Hraw Hflags ->
       | -> -> | -> ->]; try done.
  - split_and!; simpl; [| |done].
    + unfold push_back. intros c [?| ->%list_elem_of_singleton]%elem_of_app; auto.
    + intros s n r [[_ [= _ <-]]|[_ ?]]%lookup_insert_Some; eauto.
  - split_and!; simpl; [|done..].
    unfold remove_client, push_back.
    intros c [_ [?| ->%list_elem_of_singleton]%elem_of_app]%list_elem_of_filter; auto.
  - split_and!; simpl; [| |done].
    + unfold remove_client. intros c [_ ?]%list_elem_of_filter. auto.
    + intros s n r' [_ ?]%lookup_delete_Some. eauto.
  - split_and!; simpl; [done..|].
    intros r' Hne. unfold add_to_history.
    rewrite (Hh sock name r Hsome). rewrite lookup_insert_ne by done. auto.
  - split_and!; simpl.
    + unfold remove_client. intros c [_ ?]%list_elem_of_filter. auto.
    + intros s n r' [_ ?]%lookup_delete_Some. eauto.
    + intros r' Hne. unfold add_to_history.
      rewrite (Hh sock name r Hsome). rewrite lookup_insert_ne by done. auto.
  - split_and!; simpl; [|done..]. by intros c ?%elem_of_nil.
Qed.

Lemma targets_same_room (cs : list ClientInfo) (r : string) (sender : Z) :
  (∀ c, c ∈ cs → room c = r) →
  broadcast_targets cs r sender = filter (λ h, h ≠ sender) (socket <$> cs).
Proof.
  rewrite broadcast_targets_filter.
  induction cs as [|c cs IH]; intros Hroom; [done|].
  rewrite fmap_cons, !filter_cons.
  assert (room c = r) as Hc by (apply Hroom; left).
  assert (∀ c', c' ∈ cs → room c' = r) as Hrest
    by (intros c' Hc'; apply Hroom; by right).
  destruct (decide (socket c ≠ sender)).
  - rewrite decide_True by done. rewrite fmap_cons. by rewrite IH.
  - rewrite decide_False by tauto. by apply IH.
Qed.

Lemma targets_other_room (cs : list ClientInfo) (r r' : string) (sender : Z) :
  (∀ c, c ∈ cs → room c = r) → r' ≠ r →
  broadcast_targets cs r' sender = [].
Proof.
  rewrite broadcast_targets_filter.
  induction cs as [|c cs IH]; intros Hroom Hne; [done|].
  rewrite filter_cons, decide_False.
  - apply IH; [|done]. intros c' Hc'. apply Hroom. by right.
  - intros [Hr _]. apply Hne. rewrite <- Hr. apply Hroom. left.
Qed.

(** X8. The server only ever has the room general: in every run from its
    start each registered session and each handler waiting in [recv] is in
    that room and no other room has a history, so a message relayed by any
    handler is meant for every registered session but the sender's, and a
    broadcast in any other room would reach nobody. *)
Theorem single_room (inputs : list Input) (sys' : System) :
  run send_fails inputs initial_system = Some sys' →
  (∀ c, c ∈ clients (server sys') → room c = "general")
  ∧ (∀ sock name r, handlers sys' !! sock = Some (name, r) → r = "general")
  ∧ (∀ sender,
       broadcast_targets (clients (server sys')) "general" sender
       = filter (λ h, h ≠ sender) (socket <$> clients (server sys')))
  ∧ (∀ r sender,
       r ≠ "general" →
       broadcast_targets (clients (server sys')) r sender = []
       ∧ history_of (room_history (server sys')) r = []).
Proof.
  intros Hrun.
  assert (one_room sys') as (Hcl & Hh & Hhist).
  { apply (run_invariant one_room one_room_step inputs initial_system sys');
      [|done].
    split_and!; [by intros c ?%elem_of_nil | done | done]. }
  split_and!; [done..| |].
  - intros sender. by apply targets_same_room.
  - intros r sender Hne. split.
    + by apply (targets_other_room _ "general").
    + unfold history_of. by rewrite Hhist.
Qed.


(** X10. A message that arrives after the interrupt is not dropped: the
    flags are looked at only at the head of the loop, so the handler that
    was waiting in [recv] when the signal came still relays and stores what
    that [recv] returns, and leaves only then, deregistering and closing its
    descriptor. *)
Theorem message_after_signal (sys : System) (sock : Z) (name r : string)
    (rr : RecvResult) (now : tm) :
  handlers sys !! sock = Some (name, r) →
  0 < recv_ret rr → terminated rr →
  let full := format_message (nowTimestamp now) name
                (CStr.erase_remove CStr.LF (CStr.until_nul (received rr))) in
  ∃ sys',
    run send_fails [Signal; Recv sock rr now] sys = Some sys'
    ∧ room_history (server sys') = add_to_history (room_history (server sys)) r full
    ∧ trace (server sys')
      = trace (server sys)
        ++ deliver_trace send_fails (length (trace (server sys)))
             (broadcast_targets (clients (server sys)) r sock) full
        ++ [EvClose sock]
    ∧ clients (server sys') = remove_client sock (clients (server sys))
    ∧ handlers sys' = delete sock (handlers sys).
Proof.
  intros Hh Hret Hterm full.
  cbn [run step]. cbn [handlers server]. rewrite Hh, after_recv_run.
  rewrite decide_False by lia. rewrite string_of_read, decide_True by done.
  unfold flags. cbn [running serverRunning set_serverRunning].
  rewrite andb_false_r.
  eexists. split; [reflexivity|].
  unfold closed, relayed_from.
  cbn [server trace clients room_history handlers add_events set_clients
         set_serverRunning set_room_history].
  split_and!; try done. by rewrite <- app_assoc.
Qed.

End Runs.

Lemma single_room_witness :
  match run never_fails scenario initial_system with
  | Some sys' =>
      broadcast_targets (clients (server sys')) "general" 4 = [5; 6]
      ∧ broadcast_targets (clients (server sys')) "lobby" 4 = []
  | None => False
  end.
Proof.
  destruct (run never_fails scenario initial_system) as [sys'|] eqn:Hrun.
  - pose proof (single_room never_fails scenario sys' Hrun) as (_ & _ & Hsame & Hother).
    split.
    + rewrite Hsame. vm_compute in Hrun. injection Hrun as <-. reflexivity.
    + apply Hother. discriminate.
  - vm_compute in Hrun. discriminate Hrun.
Defined.


Lemma message_after_signal_witness :
  ∃ sys',
    run never_fails [Signal; Recv 4 (RecvBytes ("hi" +:+ CStr.newline)) (mk_tm 10 0 0)]
      (mk_system two_clients {[ 4 := ("A", "general"); 5 := ("B", "general") ]})
    = Some sys'
    ∧ history_of (room_history (server sys')) "general" = ["[10:00:00] A: hi"]
    ∧ handlers sys' = delete 4 {[ 4 := ("A", "general"); 5 := ("B", "general") ]}.
Proof.
  destruct (message_after_signal never_fails
              (mk_system two_clients {[ 4 := ("A", "general"); 5 := ("B", "general") ]})
              4 "A" "general" (RecvBytes ("hi" +:+ CStr.newline)) (mk_tm 10 0 0))
    as (sys' & Hrun & Hhist & _ & _ & Hhandlers).
  - reflexivity.
  - vm_compute. reflexivity.
  - left. vm_compute. lia.
  - exists sys'. split_and!; [exact Hrun | | exact Hhandlers].
    rewrite Hhist. vm_compute. reflexivity.
Defined.

(** ** [addToHistory] from several threads: what gets stored *)






